(** * SipHash.h: the streaming SipHash-2-4 engine of dbms/src/Common

    A shallow embedding of [class SipHash] and of the free functions
    [sipHash64] / [sipHash128], followed by the properties of the engine:
    the carry-buffer invariant, streaming equivalence, agreement with the
    SipHash-2-4 reference function, and bounded input access.

    Conventions.
    - [u64] values are integers of [Z] in [0, 2^64); every place where the
      C++ arithmetic truncates to 64 bits is written [wrap64].
    - The anonymous union [{ u64 current_word; u8 current_bytes[8]; }] is
      kept as the 64-bit word; [current_bytes[i]] is byte [i] of that word
      in little-endian order (the byte order of the hosts the code is built
      for), read and written with shifts and masks.
    - An input buffer [(data, size)] is the list of its [size] bytes; the
      moving pointer [data] is the suffix that is still to be read and
      [end - data] is its length. *)

From Stdlib Require Import ZArith List Lia Bool.
From Stdlib Require Import Strings.Byte.
From Stdlib Require Strings.String.
Import ListNotations.
Local Open Scope Z_scope.

(** ** Machine integers *)

(** Truncation of an integer to [u64]. *)
Definition wrap64 (x : Z) : Z := x mod 2 ^ 64.

(** [x] is a value of type [u64]. *)
Definition is_u64 (x : Z) : Prop := 0 <= x < 2 ^ 64.

(** A [u64] used as a condition: true when it is not zero. *)
Definition nonzero (x : Z) : bool := negb (x =? 0).

(** [a += b] on [u64]. *)
Definition add64 (a b : Z) : Z := wrap64 (a + b).

(** The unsigned value of a [char] of the input. *)
Definition byte_val (b : byte) : Z := Z.of_N (Byte.to_N b).

(** [#define ROTL(x,b) static_cast<u64>( ((x) << (b)) | ( (x) >> (64 - (b))) )]:
    the left shift is a [u64] shift, so it drops the bits above bit 63. *)
Definition ROTL (x b : Z) : Z :=
  wrap64 (Z.lor (wrap64 (Z.shiftl x b)) (Z.shiftr x (64 - b))).

(** ** The union of [current_word] and [current_bytes] *)

(** [current_bytes[i]], read through the word. *)
Definition get_byte (w i : Z) : Z := Z.land (Z.shiftr w (8 * i)) 255.

(** The word after [current_bytes[i] = b]. *)
Definition set_byte (w i b : Z) : Z :=
  Z.lor (Z.land w (Z.lnot (Z.shiftl 255 (8 * i)))) (Z.shiftl b (8 * i)).

(** The [u64] that starts at a byte pointer, little-endian:
    [*reinterpret_cast<const u64 *>(data)] is [le_word] of the next 8 bytes. *)
Fixpoint le_word (bs : list byte) : Z :=
  match bs with
  | [] => 0
  | b :: bs' => Z.lor (byte_val b) (Z.shiftl (le_word bs') 8)
  end.

(** ** The engine state *)

Record SipHash : Type := mkSipHash {
  v0 : Z;
  v1 : Z;
  v2 : Z;
  v3 : Z;
  cnt : Z;            (* how many bytes have been processed *)
  current_word : Z    (* the current 8 bytes of input data *)
}.

Definition set_v0 (s : SipHash) (x : Z) : SipHash :=
  mkSipHash x (v1 s) (v2 s) (v3 s) (cnt s) (current_word s).
Definition set_v2 (s : SipHash) (x : Z) : SipHash :=
  mkSipHash (v0 s) (v1 s) x (v3 s) (cnt s) (current_word s).
Definition set_v3 (s : SipHash) (x : Z) : SipHash :=
  mkSipHash (v0 s) (v1 s) (v2 s) x (cnt s) (current_word s).
Definition set_cnt (s : SipHash) (x : Z) : SipHash :=
  mkSipHash (v0 s) (v1 s) (v2 s) (v3 s) x (current_word s).
Definition set_current_word (s : SipHash) (x : Z) : SipHash :=
  mkSipHash (v0 s) (v1 s) (v2 s) (v3 s) (cnt s) x.

(** [current_bytes[i] = b]. *)
Definition set_current_byte (s : SipHash) (i b : Z) : SipHash :=
  set_current_word s (set_byte (current_word s) i b).

(** [#define SIPROUND], statement by statement. *)
Definition SIPROUND (s : SipHash) : SipHash :=
  match s with
  | mkSipHash v0 v1 v2 v3 cnt current_word =>
    let v0 := add64 v0 v1 in let v1 := ROTL v1 13 in
    let v1 := Z.lxor v1 v0 in let v0 := ROTL v0 32 in
    let v2 := add64 v2 v3 in let v3 := ROTL v3 16 in
    let v3 := Z.lxor v3 v2 in
    let v0 := add64 v0 v3 in let v3 := ROTL v3 21 in
    let v3 := Z.lxor v3 v0 in
    let v2 := add64 v2 v1 in let v1 := ROTL v1 17 in
    let v1 := Z.lxor v1 v2 in let v2 := ROTL v2 32 in
    mkSipHash v0 v1 v2 v3 cnt current_word
  end.

(** The block [v3 ^= current_word; SIPROUND; SIPROUND; v0 ^= current_word;]
    that [update] (twice) and [finalize] contain. *)
Definition mix_current_word (s : SipHash) : SipHash :=
  let s := set_v3 s (Z.lxor (v3 s) (current_word s)) in
  let s := SIPROUND s in
  let s := SIPROUND s in
  set_v0 s (Z.lxor (v0 s) (current_word s)).

(** [SipHash::finalize]. *)
Definition finalize (s : SipHash) : SipHash :=
  (* current_bytes[7] = cnt;  (conversion of u64 to u8) *)
  let s := set_current_byte s 7 (cnt s mod 256) in
  let s := mix_current_word s in
  let s := set_v2 s (Z.lxor (v2 s) 255) in
  let s := SIPROUND s in
  let s := SIPROUND s in
  let s := SIPROUND s in
  SIPROUND s.

(** The constructor [SipHash(u64 k0 = 0, u64 k1 = 0)]. *)
Definition SipHash_ctor (k0 k1 : Z) : SipHash :=
  {| v0 := Z.lxor 0x736f6d6570736575 k0;
     v1 := Z.lxor 0x646f72616e646f6d k1;
     v2 := Z.lxor 0x6c7967656e657261 k0;
     v3 := Z.lxor 0x7465646279746573 k1;
     cnt := 0;
     current_word := 0 |}.

(** The constructor with both arguments defaulted. *)
Definition SipHash_default : SipHash := SipHash_ctor 0 0.

(** *** [SipHash::update] *)

(** [while (cnt & 7 && data < end) { current_bytes[cnt & 7] = *data; ++data; ++cnt; }]
    The result is the state and the pointer after the loop. *)
Fixpoint fill_loop (s : SipHash) (data : list byte) : SipHash * list byte :=
  match data with
  | [] => (s, data)
  | b :: data' =>
    if nonzero (Z.land (cnt s) 7) then
      let s := set_current_byte s (Z.land (cnt s) 7) (byte_val b) in
      let s := set_cnt s (wrap64 (cnt s + 1)) in
      fill_loop s data'
    else (s, data)
  end.

(** [while (data + 8 <= end) { current_word = *(const u64 * )data; ...; data += 8; }] *)
Fixpoint word_loop (s : SipHash) (data : list byte) : SipHash * list byte :=
  match data with
  | b0 :: b1 :: b2 :: b3 :: b4 :: b5 :: b6 :: b7 :: data' =>
    let s := set_current_word s (le_word [b0; b1; b2; b3; b4; b5; b6; b7]) in
    let s := mix_current_word s in
    word_loop s data'
  | _ => (s, data)
  end.

(** The cases of [switch (end - data)] from label [case k] down to
    [case 0: break], falling through: [case k] is
    [current_bytes[k-1] = data[k-1];]. *)
Fixpoint switch_from (k : nat) (s : SipHash) (data : list byte) : SipHash :=
  match k with
  | O => s
  | S k' =>
    let s := set_current_byte s (Z.of_nat k') (byte_val (nth k' data x00)) in
    switch_from k' s data
  end.

(** [current_word = 0; switch (end - data) { case 7: ... case 0: break; }]
    There is no [default] label: a value above 7 selects no case. *)
Definition pad_remainder (s : SipHash) (data : list byte) : SipHash :=
  let s := set_current_word s 0 in
  if (length data <=? 7)%nat then switch_from (length data) s data else s.

(** The part of [update] from [cnt += end - data;] to its end. *)
Definition update_rest (s : SipHash) (data : list byte) : SipHash :=
  let s := set_cnt s (wrap64 (cnt s + Z.of_nat (length data))) in
  let (s, data) := word_loop s data in
  pad_remainder s data.

(** [void update(const char * data, u64 size)]. *)
Definition update (s : SipHash) (data : list byte) : SipHash :=
  if nonzero (Z.land (cnt s) 7) then
    let (s, data) := fill_loop s data in
    if nonzero (Z.land (cnt s) 7) then s   (* return; *)
    else update_rest (mix_current_word s) data
  else update_rest s data.

(** *** Digest extraction

    Each operation runs [finalize] on the engine and then reads the lanes;
    the result is paired with the engine it leaves behind. *)

(** Conversion of an integer to [u8] / [char]. *)
Definition to_u8 (x : Z) : byte :=
  match Byte.of_N (Z.to_N (x mod 256)) with
  | Some b => b
  | None => x00
  end.

(** The [n] low bytes of [x], least significant first: what a store of a
    [u64] through [reinterpret_cast<u64 *>(out)] leaves in memory. *)
Fixpoint le_bytes (n : nat) (x : Z) : list byte :=
  match n with
  | O => []
  | S n' => to_u8 x :: le_bytes n' (Z.shiftr x 8)
  end.

(** [u64 get64()]. *)
Definition get64 (s : SipHash) : Z * SipHash :=
  let s := finalize s in
  (Z.lxor (Z.lxor (Z.lxor (v0 s) (v1 s)) (v2 s)) (v3 s), s).

(** [void get128(u64 & lo, u64 & hi)]: the result is [(lo, hi)]. *)
Definition get128 (s : SipHash) : (Z * Z) * SipHash :=
  let s := finalize s in
  ((Z.lxor (v0 s) (v1 s), Z.lxor (v2 s) (v3 s)), s).

(** [void get128(char * out)]: the result is the 16 bytes written at [out]. *)
Definition get128_out (s : SipHash) : list byte * SipHash :=
  let s := finalize s in
  let out0 := le_bytes 8 (Z.lxor (v0 s) (v1 s)) in
  let out1 := le_bytes 8 (Z.lxor (v2 s) (v3 s)) in
  (out0 ++ out1, s).

(** ** The free functions *)

(** [void sipHash128(const char * data, const size_t size, char * out)]. *)
Definition sipHash128 (data : list byte) : list byte :=
  let hash := SipHash_default in
  let hash := update hash data in
  fst (get128_out hash).

(** [UInt64 sipHash64(const char * data, const size_t size)]. *)
Definition sipHash64 (data : list byte) : Z :=
  let hash := SipHash_default in
  let hash := update hash data in
  fst (get64 hash).

(** [UInt64 sipHash64(const std::string & s)]: [s.data()] and [s.size()]
    are the bytes of the string. *)
Definition sipHash64_string (s : String.string) : Z :=
  sipHash64 (String.list_byte_of_string s).

(** ** The SipHash-2-4 reference function

    The second definition, written from the published description of
    SipHash-c-d (Aumasson and Bernstein) and not from the code: the key
    is XORed into four constants; the message, followed by null bytes and
    a last byte that holds its length modulo 256, is parsed into 64-bit
    little-endian words; each word is XORed into [v3], [c] SipRounds are
    applied, and the word is XORed into [v0]; finalization XORs [0xff]
    into [v2], applies [d] SipRounds and returns the XOR of the four lanes.
    The engine is compared with it below. *)
Module Reference.

Definition lanes : Type := (Z * Z * Z * Z)%type.

(** SipRound, in the order of the published figure: the two halves of each
    line are independent of one another. *)
Definition SipRound (v : lanes) : lanes :=
  let '(v0, v1, v2, v3) := v in
  let v0 := add64 v0 v1 in let v2 := add64 v2 v3 in
  let v1 := ROTL v1 13 in  let v3 := ROTL v3 16 in
  let v1 := Z.lxor v1 v0 in let v3 := Z.lxor v3 v2 in
  let v0 := ROTL v0 32 in
  let v2 := add64 v2 v1 in let v0 := add64 v0 v3 in
  let v1 := ROTL v1 17 in  let v3 := ROTL v3 21 in
  let v1 := Z.lxor v1 v2 in let v3 := Z.lxor v3 v0 in
  let v2 := ROTL v2 32 in
  (v0, v1, v2, v3).

Definition initialization (k0 k1 : Z) : lanes :=
  (Z.lxor k0 0x736f6d6570736575, Z.lxor k1 0x646f72616e646f6d,
   Z.lxor k0 0x6c7967656e657261, Z.lxor k1 0x7465646279746573).

(** A little-endian word: byte [i] has weight [256^i]. *)
Fixpoint le64 (bs : list byte) : Z :=
  match bs with
  | [] => 0
  | b :: bs' => byte_val b + 256 * le64 bs'
  end.

(** The message as 64-bit words; bytes after the last whole word are not
    parsed (the padded message has none). *)
Fixpoint parse (m : list byte) : list Z :=
  match m with
  | b0 :: b1 :: b2 :: b3 :: b4 :: b5 :: b6 :: b7 :: m' =>
    le64 [b0; b1; b2; b3; b4; b5; b6; b7] :: parse m'
  | _ => []
  end.

(** What follows a message of [b] bytes: null bytes up to the last byte of
    a word, and that byte is [b mod 256]. *)
Definition padding (b : nat) : list byte :=
  repeat x00 (7 - b mod 8) ++ [to_u8 (Z.of_nat b)].

Definition compression (c : nat) (v : lanes) (m : Z) : lanes :=
  let '(v0, v1, v2, v3) := v in
  let '(v0, v1, v2, v3) := Nat.iter c SipRound (v0, v1, v2, Z.lxor v3 m) in
  (Z.lxor v0 m, v1, v2, v3).

Definition finalization (d : nat) (v : lanes) : Z :=
  let '(v0, v1, v2, v3) := v in
  let '(v0, v1, v2, v3) := Nat.iter d SipRound (v0, v1, Z.lxor v2 0xff, v3) in
  Z.lxor (Z.lxor (Z.lxor v0 v1) v2) v3.

Definition siphash (c d : nat) (k0 k1 : Z) (m : list byte) : Z :=
  let words := parse (m ++ padding (length m)) in
  finalization d (fold_left (compression c) words (initialization k0 k1)).

Definition siphash_2_4 : Z -> Z -> list byte -> Z := siphash 2 4.

End Reference.

(** ** [update] with every read of the input checked

    The same function over the caller's buffer: the pointer [data] is an
    offset into [buf], [end] is the offset [length buf] (the [size] of the
    call), and every read of [*data], [data[i]] or of a [u64] at [data]
    goes through [read], which fails at an offset that is not below [size].
    The loops recurse on [end - data], the quantity their conditions test. *)
Module Checked.

Inductive result (A : Type) : Type :=
| Ok (a : A)
| OutOfBounds.
Arguments Ok {A} a.
Arguments OutOfBounds {A}.

Definition bind {A B : Type} (r : result A) (k : A -> result B) : result B :=
  match r with
  | Ok a => k a
  | OutOfBounds => OutOfBounds
  end.

Notation "x <- r ;; k" := (bind r (fun x => k))
  (at level 61, r at next level, right associativity).
Notation "' p <- r ;; k" := (bind r (fun x => let p := x in k))
  (at level 61, p pattern, r at next level, right associativity).

(** The byte at offset [i] of the buffer. *)
Definition read (buf : list byte) (i : nat) : result byte :=
  match nth_error buf i with
  | Some b => Ok b
  | None => OutOfBounds
  end.

(** [*reinterpret_cast<const u64 *>(data)] with [data] at offset [i]:
    the eight bytes from [i] to [i + 7]. *)
Definition read_u64 (buf : list byte) (i : nat) : result Z :=
  b0 <- read buf i ;;
  b1 <- read buf (i + 1) ;;
  b2 <- read buf (i + 2) ;;
  b3 <- read buf (i + 3) ;;
  b4 <- read buf (i + 4) ;;
  b5 <- read buf (i + 5) ;;
  b6 <- read buf (i + 6) ;;
  b7 <- read buf (i + 7) ;;
  Ok (le_word [b0; b1; b2; b3; b4; b5; b6; b7]).

(** The first loop of [update]; [n] is [end - data]. *)
Fixpoint fill_loop (buf : list byte) (n : nat) (s : SipHash) (data : nat)
  : result (SipHash * nat) :=
  match n with
  | O => Ok (s, data)
  | S n' =>
    if nonzero (Z.land (cnt s) 7) then
      b <- read buf data ;;
      let s := set_current_byte s (Z.land (cnt s) 7) (byte_val b) in
      let s := set_cnt s (wrap64 (cnt s + 1)) in
      fill_loop buf n' s (data + 1)
    else Ok (s, data)
  end.

(** The second loop of [update]; [n] is [end - data], and [data + 8 <= end]
    holds when [n] is at least 8. *)
Fixpoint word_loop (buf : list byte) (n : nat) (s : SipHash) (data : nat)
  : result (SipHash * nat) :=
  match n with
  | S (S (S (S (S (S (S (S n'))))))) =>
    w <- read_u64 buf data ;;
    let s := set_current_word s w in
    let s := mix_current_word s in
    word_loop buf n' s (data + 8)
  | _ => Ok (s, data)
  end.

(** The cases of the [switch] from [case k] down, with [data[k-1]] read
    at offset [data + (k - 1)]. *)
Fixpoint switch_from (buf : list byte) (k : nat) (s : SipHash) (data : nat)
  : result SipHash :=
  match k with
  | O => Ok s
  | S k' =>
    b <- read buf (data + k') ;;
    let s := set_current_byte s (Z.of_nat k') (byte_val b) in
    switch_from buf k' s data
  end.

Definition pad_remainder (buf : list byte) (s : SipHash) (data : nat)
  : result SipHash :=
  let s := set_current_word s 0 in
  let n := (length buf - data)%nat in
  if (n <=? 7)%nat then switch_from buf n s data else Ok s.

Definition update_rest (buf : list byte) (s : SipHash) (data : nat)
  : result SipHash :=
  let n := (length buf - data)%nat in
  let s := set_cnt s (wrap64 (cnt s + Z.of_nat n)) in
  '(s, data) <- word_loop buf n s data ;;
  pad_remainder buf s data.

(** [update(data, size)] on the buffer [buf] of [size] bytes. *)
Definition update (s : SipHash) (buf : list byte) : result SipHash :=
  let data := 0%nat in
  if nonzero (Z.land (cnt s) 7) then
    '(s, data) <- fill_loop buf (length buf - data) s data ;;
    if nonzero (Z.land (cnt s) 7) then Ok s
    else update_rest buf (mix_current_word s) data
  else update_rest buf s data.

(** [sipHash64(data, size)] over the checked [update]; [finalize] and
    [get64] read no input. *)
Definition sipHash64 (buf : list byte) : result Z :=
  s <- update SipHash_default buf ;;
  Ok (fst (get64 s)).

End Checked.

(** ** Vocabulary of the statements *)

(** The four lanes of an engine. *)
Definition lanes_of (s : SipHash) : Reference.lanes := (v0 s, v1 s, v2 s, v3 s).

(** One [update] call per chunk, in order. *)
Definition updates (s : SipHash) (chunks : list (list byte)) : SipHash :=
  fold_left update chunks s.

(** The bytes of a message after its last whole 8-byte word. *)
Fixpoint remainder (m : list byte) : list byte :=
  match m with
  | _ :: _ :: _ :: _ :: _ :: _ :: _ :: _ :: m' => remainder m'
  | _ => m
  end.

(** The engine that, from a state [s0] with no pending bytes, has taken
    in the message [m]: the whole words of [m] are compressed into the
    lanes, the counter has advanced by the length of [m], and the bytes
    after the last whole word sit in the carry buffer above zero bytes. *)
Definition absorbed (s0 : SipHash) (m : list byte) : SipHash :=
  let '(a, b, c, d) :=
    fold_left (Reference.compression 2) (Reference.parse m) (lanes_of s0) in
  mkSipHash a b c d (wrap64 (cnt s0 + Z.of_nat (length m))) (le_word (remainder m)).

(** The carry buffer of [s] holds exactly the bytes [t], above zero bytes. *)
Definition carrying (s : SipHash) (t : list byte) : Prop :=
  is_u64 (cnt s) /\ Z.land (cnt s) 7 = Z.of_nat (length t) /\
  current_word s = le_word t.

(** The inverse of [ROTL] on [u64]: rotation to the right. *)
Definition ROTR (x b : Z) : Z := ROTL x (64 - b).

(** [SIPROUND] undone, last statement first; [a -= b] on [u64] is
    [wrap64 (a - b)]. *)
Definition SIPROUND_inv (s : SipHash) : SipHash :=
  match s with
  | mkSipHash v0 v1 v2 v3 cnt current_word =>
    let v2 := ROTR v2 32 in let v1 := Z.lxor v1 v2 in
    let v1 := ROTR v1 17 in let v2 := wrap64 (v2 - v1) in
    let v3 := Z.lxor v3 v0 in let v3 := ROTR v3 21 in
    let v0 := wrap64 (v0 - v3) in
    let v3 := Z.lxor v3 v2 in let v3 := ROTR v3 16 in
    let v2 := wrap64 (v2 - v3) in
    let v0 := ROTR v0 32 in let v1 := Z.lxor v1 v0 in
    let v1 := ROTR v1 13 in let v0 := wrap64 (v0 - v1) in
    mkSipHash v0 v1 v2 v3 cnt current_word
  end.

(** Every lane of the engine is a [u64]. *)
Definition lanes_u64 (s : SipHash) : Prop :=
  is_u64 (v0 s) /\ is_u64 (v1 s) /\ is_u64 (v2 s) /\ is_u64 (v3 s).

(** The four lines of [SIPROUND], each as a map of the engine, and the
    maps that undo them: the round is their composition. *)
Definition SIPROUND_line1 (s : SipHash) : SipHash :=
  match s with
  | mkSipHash v0 v1 v2 v3 cnt current_word =>
    let v0 := add64 v0 v1 in let v1 := ROTL v1 13 in
    let v1 := Z.lxor v1 v0 in let v0 := ROTL v0 32 in
    mkSipHash v0 v1 v2 v3 cnt current_word
  end.

Definition SIPROUND_line2 (s : SipHash) : SipHash :=
  match s with
  | mkSipHash v0 v1 v2 v3 cnt current_word =>
    let v2 := add64 v2 v3 in let v3 := ROTL v3 16 in
    let v3 := Z.lxor v3 v2 in
    mkSipHash v0 v1 v2 v3 cnt current_word
  end.

Definition SIPROUND_line3 (s : SipHash) : SipHash :=
  match s with
  | mkSipHash v0 v1 v2 v3 cnt current_word =>
    let v0 := add64 v0 v3 in let v3 := ROTL v3 21 in
    let v3 := Z.lxor v3 v0 in
    mkSipHash v0 v1 v2 v3 cnt current_word
  end.

Definition SIPROUND_line4 (s : SipHash) : SipHash :=
  match s with
  | mkSipHash v0 v1 v2 v3 cnt current_word =>
    let v2 := add64 v2 v1 in let v1 := ROTL v1 17 in
    let v1 := Z.lxor v1 v2 in let v2 := ROTL v2 32 in
    mkSipHash v0 v1 v2 v3 cnt current_word
  end.

Definition SIPROUND_unline1 (s : SipHash) : SipHash :=
  match s with
  | mkSipHash v0 v1 v2 v3 cnt current_word =>
    let v0 := ROTR v0 32 in let v1 := Z.lxor v1 v0 in
    let v1 := ROTR v1 13 in let v0 := wrap64 (v0 - v1) in
    mkSipHash v0 v1 v2 v3 cnt current_word
  end.

Definition SIPROUND_unline2 (s : SipHash) : SipHash :=
  match s with
  | mkSipHash v0 v1 v2 v3 cnt current_word =>
    let v3 := Z.lxor v3 v2 in let v3 := ROTR v3 16 in
    let v2 := wrap64 (v2 - v3) in
    mkSipHash v0 v1 v2 v3 cnt current_word
  end.

Definition SIPROUND_unline3 (s : SipHash) : SipHash :=
  match s with
  | mkSipHash v0 v1 v2 v3 cnt current_word =>
    let v3 := Z.lxor v3 v0 in let v3 := ROTR v3 21 in
    let v0 := wrap64 (v0 - v3) in
    mkSipHash v0 v1 v2 v3 cnt current_word
  end.

Definition SIPROUND_unline4 (s : SipHash) : SipHash :=
  match s with
  | mkSipHash v0 v1 v2 v3 cnt current_word =>
    let v2 := ROTR v2 32 in let v1 := Z.lxor v1 v2 in
    let v1 := ROTR v1 17 in let v2 := wrap64 (v2 - v1) in
    mkSipHash v0 v1 v2 v3 cnt current_word
  end.

(** ** The published test vectors

    The key and messages of the SipHash-2-4 known-answer test of the
    reference implementation: the key bytes are [00 01 ... 0f], message [n]
    is the [n] bytes [00 01 ... n-1], and [official_vectors] lists the
    published 64-bit outputs for [n] from 0 to 63 (each printed there as 8
    bytes, least significant first). *)
Definition test_key0 : Z := 0x0706050403020100.
Definition test_key1 : Z := 0x0f0e0d0c0b0a0908.

Definition test_message (n : nat) : list byte :=
  map (fun i => to_u8 (Z.of_nat i)) (seq 0 n).

Definition official_vectors : list Z :=
  [
   0x726fdb47dd0e0e31; 0x74f839c593dc67fd; 0x0d6c8009d9a94f5a; 0x85676696d7fb7e2d;
   0xcf2794e0277187b7; 0x18765564cd99a68d; 0xcbc9466e58fee3ce; 0xab0200f58b01d137;
   0x93f5f5799a932462; 0x9e0082df0ba9e4b0; 0x7a5dbbc594ddb9f3; 0xf4b32f46226bada7;
   0x751e8fbc860ee5fb; 0x14ea5627c0843d90; 0xf723ca908e7af2ee; 0xa129ca6149be45e5;
   0x3f2acc7f57c29bdb; 0x699ae9f52cbe4794; 0x4bc1b3f0968dd39c; 0xbb6dc91da77961bd;
   0xbed65cf21aa2ee98; 0xd0f2cbb02e3b67c7; 0x93536795e3a33e88; 0xa80c038ccd5ccec8;
   0xb8ad50c6f649af94; 0xbce192de8a85b8ea; 0x17d835b85bbb15f3; 0x2f2e6163076bcfad;
   0xde4daaaca71dc9a5; 0xa6a2506687956571; 0xad87a3535c49ef28; 0x32d892fad841c342;
   0x7127512f72f27cce; 0xa7f32346f95978e3; 0x12e0b01abb051238; 0x15e034d40fa197ae;
   0x314dffbe0815a3b4; 0x027990f029623981; 0xcadcd4e59ef40c4d; 0x9abfd8766a33735c;
   0x0e3ea96b5304a7d0; 0xad0c42d6fc585992; 0x187306c89bc215a9; 0xd4a60abcf3792b95;
   0xf935451de4f21df2; 0xa9538f0419755787; 0xdb9acddff56ca510; 0xd06c98cd5c0975eb;
   0xe612a3cb9ecba951; 0xc766e62cfcadaf96; 0xee64435a9752fe72; 0xa192d576b245165a;
   0x0a8787bf8ecb74b2; 0x81b3e73d20b49b6f; 0x7fa8220ba3b2ecea; 0x245731c13ca42499;
   0xb78dbfaf3a8d83bd; 0xea1ad565322a1a0b; 0x60e61c23a3795013; 0x6606d7e446282b93;
   0x6ca4ecb15c5f91e1; 0x9f626da15c9625f3; 0xe51b38608ef25f57; 0x958a324ceb064572
  ].

(** Four lanes that are [u64] values. *)
Definition quad_u64 (v : Reference.lanes) : Prop :=
  let '(a, b, c, d) := v in is_u64 a /\ is_u64 b /\ is_u64 c /\ is_u64 d.

(** The block [v3 ^= current_word; SIPROUND; SIPROUND; v0 ^= current_word;]
    undone, last statement first. *)
Definition unmix_current_word (s : SipHash) : SipHash :=
  let s := set_v0 s (Z.lxor (v0 s) (current_word s)) in
  let s := SIPROUND_inv s in
  let s := SIPROUND_inv s in
  set_v3 s (Z.lxor (v3 s) (current_word s)).

(** * Properties *)

(** ** Integers, bytes and words *)

Lemma byte_val_range (b : byte) : 0 <= byte_val b < 256.
Proof.
  unfold byte_val. pose proof (Byte.to_N_bounded b). lia.
Qed.

Lemma wrap64_range (x : Z) : is_u64 (wrap64 x).
Proof. unfold is_u64, wrap64. apply Z.mod_pos_bound. lia. Qed.

Lemma wrap64_small (x : Z) : is_u64 x -> wrap64 x = x.
Proof. unfold is_u64, wrap64. intros H. apply Z.mod_small, H. Qed.

Lemma wrap64_add_l (a b : Z) : wrap64 (wrap64 a + b) = wrap64 (a + b).
Proof. unfold wrap64. apply Zplus_mod_idemp_l. Qed.

Lemma land7_mod8 (x : Z) : Z.land x 7 = x mod 8.
Proof. change 7 with (Z.ones 3). rewrite Z.land_ones by lia. reflexivity. Qed.

Lemma wrap64_mod8 (x : Z) : wrap64 x mod 8 = x mod 8.
Proof.
  unfold wrap64. change (2 ^ 64) with 18446744073709551616.
  Z.div_mod_to_equations. lia.
Qed.

Lemma wrap64_mod256 (x : Z) : wrap64 x mod 256 = x mod 256.
Proof.
  unfold wrap64. change (2 ^ 64) with 18446744073709551616.
  Z.div_mod_to_equations. lia.
Qed.

Lemma nonzero_false (x : Z) : nonzero x = false <-> x = 0.
Proof. unfold nonzero. rewrite negb_false_iff. apply Z.eqb_eq. Qed.

Lemma nonzero_true (x : Z) : nonzero x = true <-> x <> 0.
Proof. unfold nonzero. rewrite negb_true_iff. apply Z.eqb_neq. Qed.

(** Bits of a number at and above its size are clear. *)
Lemma testbit_above (x n i : Z) :
  0 <= x < 2 ^ n -> 0 <= n <= i -> Z.testbit x i = false.
Proof.
  intros Hx Hn. rewrite <- (Z.mod_small x (2 ^ n)) by exact Hx.
  apply Z.mod_pow2_bits_high. lia.
Qed.

Lemma lor_shiftl_add (a w n : Z) :
  0 <= a < 2 ^ n -> 0 <= n -> Z.lor a (Z.shiftl w n) = a + w * 2 ^ n.
Proof.
  intros Ha Hn. rewrite Z.shiftl_mul_pow2 by lia.
  assert (Hdisj : Z.land a (w * 2 ^ n) = 0).
  2: { rewrite <- Z.lxor_lor by exact Hdisj. symmetry.
       apply Z.add_nocarry_lxor, Hdisj. }
  apply Z.bits_inj'. intros i Hi.
  rewrite Z.land_spec, Z.bits_0.
  destruct (Z.lt_ge_cases i n) as [Hlt | Hge].
  - rewrite Z.mul_pow2_bits_low by lia. apply andb_false_r.
  - rewrite (testbit_above a n i) by lia. reflexivity.
Qed.

(** The two little-endian readings of a byte string agree. *)
Lemma le_word_le64 (bs : list byte) : le_word bs = Reference.le64 bs.
Proof.
  induction bs as [| b bs IH]; cbn [le_word Reference.le64]; [reflexivity |].
  rewrite lor_shiftl_add by (pose proof (byte_val_range b); lia).
  rewrite IH. change (2 ^ 8) with 256. lia.
Qed.

Lemma le64_range (bs : list byte) :
  0 <= Reference.le64 bs < 2 ^ (8 * Z.of_nat (length bs)).
Proof.
  induction bs as [| b bs IH].
  - simpl. lia.
  - cbn [Reference.le64 length]. pose proof (byte_val_range b).
    replace (8 * Z.of_nat (S (length bs))) with (8 + 8 * Z.of_nat (length bs)) by lia.
    rewrite Z.pow_add_r by lia. change (2 ^ 8) with 256. lia.
Qed.

Lemma le_word_range (bs : list byte) :
  0 <= le_word bs < 2 ^ (8 * Z.of_nat (length bs)).
Proof. rewrite le_word_le64. apply le64_range. Qed.

Lemma le_word_u64 (bs : list byte) : (length bs <= 8)%nat -> is_u64 (le_word bs).
Proof.
  intros H. pose proof (le_word_range bs) as R. unfold is_u64.
  assert (2 ^ (8 * Z.of_nat (length bs)) <= 2 ^ 64)
    by (apply Z.pow_le_mono_r; lia).
  lia.
Qed.

Lemma le_word_app (a b : list byte) :
  le_word (a ++ b) =
  Z.lor (le_word a) (Z.shiftl (le_word b) (8 * Z.of_nat (length a))).
Proof.
  induction a as [| x a IH].
  - cbn [app le_word length]. change (8 * Z.of_nat 0) with 0.
    rewrite Z.shiftl_0_r. reflexivity.
  - cbn [app le_word length]. rewrite IH.
    replace (8 * Z.of_nat (S (length a))) with (8 * Z.of_nat (length a) + 8) by lia.
    rewrite <- Z.shiftl_shiftl by lia.
    rewrite Z.shiftl_lor, Z.lor_assoc. reflexivity.
Qed.

(** Writing a byte of the union whose eight bits are clear is an OR. *)
Lemma set_byte_clear (w i b : Z) :
  0 <= i -> get_byte w i = 0 ->
  set_byte w i b = Z.lor w (Z.shiftl b (8 * i)).
Proof.
  intros Hi Hz. unfold set_byte. f_equal.
  apply Z.bits_inj'. intros n Hn.
  rewrite Z.land_spec, Z.lnot_spec, Z.shiftl_spec by lia.
  destruct (Z.testbit w n) eqn:Hw; [| reflexivity]. rewrite andb_true_l.
  destruct (Z.lt_ge_cases n (8 * i)) as [Hlt | Hge].
  - rewrite Z.testbit_neg_r by lia. reflexivity.
  - destruct (Z.lt_ge_cases (n - 8 * i) 8) as [Hlt8 | Hge8].
    + exfalso.
      assert (Hb : Z.testbit (get_byte w i) (n - 8 * i) = true).
      { unfold get_byte. rewrite Z.land_spec, Z.shiftr_spec by lia.
        replace (n - 8 * i + 8 * i) with n by lia. rewrite Hw.
        change 255 with (Z.ones 8). rewrite Z.ones_spec_low by lia. reflexivity. }
      rewrite Hz, Z.bits_0 in Hb. discriminate.
    + change 255 with (Z.ones 8). rewrite Z.ones_spec_high by lia. reflexivity.
Qed.

Lemma get_byte_small (w i : Z) : 0 <= i -> 0 <= w < 2 ^ (8 * i) -> get_byte w i = 0.
Proof.
  intros Hi Hw. unfold get_byte.
  rewrite Z.shiftr_div_pow2 by lia. rewrite Z.div_small by exact Hw.
  apply Z.land_0_l.
Qed.

Lemma get_byte_shifted (u i : Z) :
  0 <= i -> get_byte (Z.shiftl u (8 * i + 8)) i = 0.
Proof.
  intros Hi. unfold get_byte. apply Z.bits_inj'. intros n Hn.
  rewrite Z.land_spec, Z.shiftr_spec, Z.bits_0 by lia.
  destruct (Z.lt_ge_cases n 8) as [Hlt | Hge].
  - rewrite Z.shiftl_spec_low by lia. reflexivity.
  - change 255 with (Z.ones 8). rewrite Z.ones_spec_high by lia.
    apply andb_false_r.
Qed.

(** ** The effect of each operation on lanes, counter and carry word *)

Lemma SipHash_eq (s s' : SipHash) :
  lanes_of s = lanes_of s' -> cnt s = cnt s' ->
  current_word s = current_word s' -> s = s'.
Proof.
  destruct s, s'. unfold lanes_of. cbn. intros L C W.
  inversion L. subst. reflexivity.
Qed.

Lemma SIPROUND_lanes (s : SipHash) :
  lanes_of (SIPROUND s) = Reference.SipRound (lanes_of s).
Proof. destruct s. reflexivity. Qed.

Lemma SIPROUND_cnt (s : SipHash) : cnt (SIPROUND s) = cnt s.
Proof. destruct s. reflexivity. Qed.

Lemma SIPROUND_current_word (s : SipHash) :
  current_word (SIPROUND s) = current_word s.
Proof. destruct s. reflexivity. Qed.

Lemma mix_lanes (s : SipHash) :
  lanes_of (mix_current_word s) =
  Reference.compression 2 (lanes_of s) (current_word s).
Proof.
  unfold mix_current_word, Reference.compression. cbv zeta.
  set (s1 := set_v3 s (Z.lxor (v3 s) (current_word s))).
  assert (W : current_word (SIPROUND (SIPROUND s1)) = current_word s)
    by (rewrite !SIPROUND_current_word; reflexivity).
  assert (E : lanes_of (SIPROUND (SIPROUND s1)) =
              Reference.SipRound (Reference.SipRound
                (v0 s, v1 s, v2 s, Z.lxor (v3 s) (current_word s))))
    by (rewrite !SIPROUND_lanes; reflexivity).
  rewrite W. unfold lanes_of at 2. cbv beta iota.
  unfold Nat.iter. cbn [nat_rect]. rewrite <- E.
  destruct (SIPROUND (SIPROUND s1)). reflexivity.
Qed.

Lemma mix_cnt (s : SipHash) : cnt (mix_current_word s) = cnt s.
Proof.
  unfold mix_current_word, set_v0, set_v3. cbn [cnt].
  rewrite !SIPROUND_cnt. reflexivity.
Qed.

Lemma mix_word (s : SipHash) : current_word (mix_current_word s) = current_word s.
Proof.
  unfold mix_current_word, set_v0, set_v3. cbn [current_word].
  rewrite !SIPROUND_current_word. reflexivity.
Qed.

(** ** Messages as whole words and a remainder *)

(** Induction on a byte string eight bytes at a time. *)
Lemma list_ind8 (P : list byte -> Prop) :
  (forall l, (length l < 8)%nat -> P l) ->
  (forall b0 b1 b2 b3 b4 b5 b6 b7 l,
     P l -> P (b0 :: b1 :: b2 :: b3 :: b4 :: b5 :: b6 :: b7 :: l)) ->
  forall l, P l.
Proof.
  intros Hshort Hword. fix IH 1. intros l.
  destruct l as [| b0 [| b1 [| b2 [| b3 [| b4 [| b5 [| b6 [| b7 l]]]]]]]];
    try (apply Hshort; simpl; lia).
  apply Hword, IH.
Qed.

Lemma parse_short (m : list byte) :
  (length m < 8)%nat -> Reference.parse m = [] /\ remainder m = m.
Proof.
  intros H.
  destruct m as [| b0 [| b1 [| b2 [| b3 [| b4 [| b5 [| b6 [| b7 l]]]]]]]];
    try (split; reflexivity).
  simpl in H. lia.
Qed.

Lemma parse_word (w rest : list byte) :
  length w = 8%nat ->
  Reference.parse (w ++ rest) = le_word w :: Reference.parse rest /\
  remainder (w ++ rest) = remainder rest.
Proof.
  intros H.
  destruct w as [| b0 [| b1 [| b2 [| b3 [| b4 [| b5 [| b6 [| b7 l]]]]]]]];
    try discriminate.
  destruct l; [| discriminate].
  rewrite le_word_le64. split; reflexivity.
Qed.

Lemma parse_app (m c : list byte) :
  Reference.parse (m ++ c) = Reference.parse m ++ Reference.parse (remainder m ++ c) /\
  remainder (m ++ c) = remainder (remainder m ++ c).
Proof.
  induction m as [l H | b0 b1 b2 b3 b4 b5 b6 b7 l [IHp IHr]] using list_ind8.
  - destruct (parse_short l H) as [-> ->]. split; reflexivity.
  - split.
    + change (Reference.parse ((b0 :: b1 :: b2 :: b3 :: b4 :: b5 :: b6 :: b7 :: l) ++ c))
        with (Reference.le64 [b0; b1; b2; b3; b4; b5; b6; b7] :: Reference.parse (l ++ c)).
      rewrite IHp. reflexivity.
    + exact IHr.
Qed.

Lemma length_parse_remainder (m : list byte) :
  length m = (8 * length (Reference.parse m) + length (remainder m))%nat /\
  (length (remainder m) < 8)%nat.
Proof.
  induction m as [l H | b0 b1 b2 b3 b4 b5 b6 b7 l [IH1 IH2]] using list_ind8.
  - destruct (parse_short l H) as [-> ->]. simpl. lia.
  - change (remainder (b0 :: b1 :: b2 :: b3 :: b4 :: b5 :: b6 :: b7 :: l))
      with (remainder l).
    change (Reference.parse (b0 :: b1 :: b2 :: b3 :: b4 :: b5 :: b6 :: b7 :: l))
      with (Reference.le64 [b0; b1; b2; b3; b4; b5; b6; b7] :: Reference.parse l).
    cbn [length]. lia.
Qed.

Lemma remainder_length (m : list byte) :
  Z.of_nat (length (remainder m)) = Z.of_nat (length m) mod 8.
Proof.
  destruct (length_parse_remainder m) as [E L].
  rewrite E. rewrite Nat2Z.inj_add, Nat2Z.inj_mul.
  rewrite Z.add_comm, Z.mul_comm, Z.mod_add by lia.
  symmetry. apply Z.mod_small. lia.
Qed.

Lemma remainder_suffix (m : list byte) :
  remainder m = skipn (length m - length (remainder m)) m.
Proof.
  induction m as [l H | b0 b1 b2 b3 b4 b5 b6 b7 l IH] using list_ind8.
  - destruct (parse_short l H) as [_ ->]. rewrite Nat.sub_diag. reflexivity.
  - change (remainder (b0 :: b1 :: b2 :: b3 :: b4 :: b5 :: b6 :: b7 :: l))
      with (remainder l).
    destruct (length_parse_remainder l) as [E L].
    replace (length (b0 :: b1 :: b2 :: b3 :: b4 :: b5 :: b6 :: b7 :: l)
             - length (remainder l))%nat
      with (8 + (length l - length (remainder l)))%nat by (cbn [length]; lia).
    rewrite IH at 1. reflexivity.
Qed.


(** ** The loops of [update] *)

Lemma absorbed_lanes (s0 : SipHash) (m : list byte) :
  lanes_of (absorbed s0 m) =
  fold_left (Reference.compression 2) (Reference.parse m) (lanes_of s0).
Proof.
  unfold absorbed.
  destruct (fold_left _ _ _) as [[[a b] c] d]. reflexivity.
Qed.

Lemma absorbed_cnt (s0 : SipHash) (m : list byte) :
  cnt (absorbed s0 m) = wrap64 (cnt s0 + Z.of_nat (length m)).
Proof.
  unfold absorbed.
  destruct (fold_left _ _ _) as [[[a b] c] d]. reflexivity.
Qed.

Lemma absorbed_word (s0 : SipHash) (m : list byte) :
  current_word (absorbed s0 m) = le_word (remainder m).
Proof.
  unfold absorbed.
  destruct (fold_left _ _ _) as [[[a b] c] d]. reflexivity.
Qed.

Lemma lanes_set_current_word (s : SipHash) (w : Z) :
  lanes_of (set_current_word s w) = lanes_of s.
Proof. reflexivity. Qed.

Lemma lanes_set_cnt (s : SipHash) (c : Z) : lanes_of (set_cnt s c) = lanes_of s.
Proof. reflexivity. Qed.

Lemma word_loop_cons8 (s : SipHash) (b0 b1 b2 b3 b4 b5 b6 b7 : byte) (l : list byte) :
  word_loop s (b0 :: b1 :: b2 :: b3 :: b4 :: b5 :: b6 :: b7 :: l) =
  word_loop (mix_current_word
               (set_current_word s (le_word [b0; b1; b2; b3; b4; b5; b6; b7]))) l.
Proof. reflexivity. Qed.

Lemma parse_cons8 (b0 b1 b2 b3 b4 b5 b6 b7 : byte) (l : list byte) :
  Reference.parse (b0 :: b1 :: b2 :: b3 :: b4 :: b5 :: b6 :: b7 :: l) =
  Reference.le64 [b0; b1; b2; b3; b4; b5; b6; b7] :: Reference.parse l.
Proof. reflexivity. Qed.

Lemma remainder_cons8 (b0 b1 b2 b3 b4 b5 b6 b7 : byte) (l : list byte) :
  remainder (b0 :: b1 :: b2 :: b3 :: b4 :: b5 :: b6 :: b7 :: l) = remainder l.
Proof. reflexivity. Qed.

Lemma fold_left_cons {A B : Type} (f : A -> B -> A) (b : B) (l : list B) (a : A) :
  fold_left f (b :: l) a = fold_left f l (f a b).
Proof. reflexivity. Qed.

Lemma current_word_set_current_word (s : SipHash) (w : Z) :
  current_word (set_current_word s w) = w.
Proof. reflexivity. Qed.

Lemma cnt_set_current_word (s : SipHash) (w : Z) :
  cnt (set_current_word s w) = cnt s.
Proof. reflexivity. Qed.

Lemma word_loop_spec (m : list byte) : forall s : SipHash,
  lanes_of (fst (word_loop s m)) =
    fold_left (Reference.compression 2) (Reference.parse m) (lanes_of s) /\
  cnt (fst (word_loop s m)) = cnt s /\
  snd (word_loop s m) = remainder m.
Proof.
  induction m as [l H | b0 b1 b2 b3 b4 b5 b6 b7 l IH] using list_ind8; intros s.
  - destruct (parse_short l H) as [-> ->].
    destruct l as [| c0 [| c1 [| c2 [| c3 [| c4 [| c5 [| c6 [| c7 l]]]]]]]];
      cbn [length] in H; try lia; repeat split; reflexivity.
  - rewrite word_loop_cons8, parse_cons8, remainder_cons8, fold_left_cons.
    destruct (IH (mix_current_word
                 (set_current_word s (le_word [b0; b1; b2; b3; b4; b5; b6; b7]))))
      as (IHl & IHc & IHd).
    rewrite IHl, IHc, IHd. rewrite mix_lanes, mix_cnt.
    rewrite lanes_set_current_word, current_word_set_current_word,
      cnt_set_current_word. rewrite <- le_word_le64.
    repeat split; reflexivity.
Qed.

Lemma skipn_nth (k : nat) (data : list byte) :
  (k < length data)%nat -> skipn k data = nth k data x00 :: skipn (S k) data.
Proof.
  revert data. induction k as [| k IH]; intros [| x data] H; simpl in H; try lia.
  - reflexivity.
  - cbn [skipn nth]. rewrite IH by lia. reflexivity.
Qed.

(** The fall-through cases copy the bytes below [k]; the bytes from [k]
    up are those already in the word. *)
Lemma switch_from_spec (k : nat) : forall (s : SipHash) (data : list byte),
  (k <= length data)%nat ->
  current_word s = Z.shiftl (le_word (skipn k data)) (8 * Z.of_nat k) ->
  switch_from k s data = set_current_word s (le_word data).
Proof.
  induction k as [| k IH]; intros s data Hk Hw.
  - cbn [switch_from]. cbn [skipn] in Hw. change (8 * Z.of_nat 0) with 0 in Hw.
    rewrite Z.shiftl_0_r in Hw. rewrite <- Hw. destruct s. reflexivity.
  - cbn [switch_from]. cbv zeta. rewrite IH.
    + destruct s. reflexivity.
    + lia.
    + unfold set_current_byte, set_current_word. cbn [current_word]. rewrite Hw.
      replace (8 * Z.of_nat (S k)) with (8 * Z.of_nat k + 8) by lia.
      rewrite set_byte_clear by (try apply get_byte_shifted; lia).
      rewrite (skipn_nth k data) by lia. cbn [le_word].
      rewrite Z.shiftl_lor, Z.shiftl_shiftl by lia.
      rewrite Z.lor_comm. f_equal. f_equal. lia.
Qed.

Lemma pad_remainder_spec (s : SipHash) (t : list byte) :
  (length t < 8)%nat -> pad_remainder s t = set_current_word s (le_word t).
Proof.
  intros H. unfold pad_remainder. cbv zeta.
  replace (length t <=? 7)%nat with true by (symmetry; apply Nat.leb_le; lia).
  rewrite switch_from_spec.
  - destruct s. reflexivity.
  - lia.
  - rewrite skipn_all, current_word_set_current_word. cbn [le_word].
    rewrite Z.shiftl_0_l. reflexivity.
Qed.

(** From [cnt += end - data] on, [update] computes [absorbed]. *)
Lemma update_rest_absorbed (s : SipHash) (m : list byte) :
  update_rest s m = absorbed s m.
Proof.
  unfold update_rest. cbv zeta.
  pose proof (word_loop_spec m (set_cnt s (wrap64 (cnt s + Z.of_nat (length m)))))
    as (Hl & Hc & Hd).
  destruct (word_loop _ m) as [s' d]. cbn [fst snd] in Hl, Hc, Hd. subst d.
  rewrite pad_remainder_spec by apply length_parse_remainder.
  apply SipHash_eq.
  - rewrite absorbed_lanes, lanes_set_current_word, Hl, lanes_set_cnt. reflexivity.
  - rewrite absorbed_cnt, cnt_set_current_word, Hc. reflexivity.
  - rewrite absorbed_word, current_word_set_current_word. reflexivity.
Qed.

Lemma fill_loop_aligned (s : SipHash) (data : list byte) :
  Z.land (cnt s) 7 = 0 -> fill_loop s data = (s, data).
Proof.
  intros H. destruct data as [| b data]; [reflexivity |].
  cbn [fill_loop]. apply nonzero_false in H. rewrite H. reflexivity.
Qed.

Lemma fill_loop_cons (s : SipHash) (b : byte) (d : list byte) :
  fill_loop s (b :: d) =
  if nonzero (Z.land (cnt s) 7) then
    fill_loop (set_cnt (set_current_byte s (Z.land (cnt s) 7) (byte_val b))
                       (wrap64 (cnt s + 1))) d
  else (s, b :: d).
Proof. reflexivity. Qed.

Lemma set_byte_append (t : list byte) (b : byte) :
  set_byte (le_word t) (Z.of_nat (length t)) (byte_val b) = le_word (t ++ [b]).
Proof.
  rewrite set_byte_clear.
  - rewrite le_word_app. cbn [le_word]. rewrite Z.shiftl_0_l, Z.lor_0_r. reflexivity.
  - lia.
  - apply get_byte_small; [lia | apply le_word_range].
Qed.

Lemma land7_succ (c : Z) (n : nat) :
  Z.land c 7 = Z.of_nat n -> (n < 8)%nat ->
  Z.land (wrap64 (c + 1)) 7 = if (n =? 7)%nat then 0 else Z.of_nat (S n).
Proof.
  rewrite !land7_mod8, wrap64_mod8. intros Hc Hn.
  destruct (Nat.eqb_spec n 7) as [-> | Hne];
    Z.div_mod_to_equations; lia.
Qed.

(** The first loop tops the carry buffer up with the first bytes of the
    input: as many as complete the word, or all of them. *)
Lemma fill_loop_spec (c : list byte) : forall (t : list byte) (s : SipHash),
  (0 < length t < 8)%nat -> carrying s t ->
  fill_loop s c =
  (set_current_word
     (set_cnt s (wrap64 (cnt s + Z.of_nat (Nat.min (8 - length t) (length c)))))
     (le_word (t ++ firstn (Nat.min (8 - length t) (length c)) c)),
   skipn (Nat.min (8 - length t) (length c)) c).
Proof.
  induction c as [| x c IH]; intros t s Ht (Hu & Hc & Hw).
  - rewrite Nat.min_0_r. cbn [fill_loop firstn skipn length]. rewrite app_nil_r.
    change (Z.of_nat 0) with 0.
    rewrite Z.add_0_r, wrap64_small by exact Hu. rewrite <- Hw.
    destruct s. reflexivity.
  - rewrite fill_loop_cons.
    replace (nonzero (Z.land (cnt s) 7)) with true
      by (symmetry; apply nonzero_true; lia).
    pose proof (land7_succ (cnt s) (length t) Hc (proj2 Ht)) as Hnext.
    set (s1 := set_cnt (set_current_byte s (Z.land (cnt s) 7) (byte_val x))
                       (wrap64 (cnt s + 1))) in *.
    assert (Hw1 : current_word s1 = le_word (t ++ [x])).
    { unfold s1, set_cnt, set_current_byte, set_current_word. cbn [current_word].
      rewrite Hw, Hc. apply set_byte_append. }
    assert (Hc1 : cnt s1 = wrap64 (cnt s + 1)) by reflexivity.
    destruct (Nat.eqb_spec (length t) 7) as [E7 | N7].
    + rewrite fill_loop_aligned by (rewrite Hc1; exact Hnext).
      replace (Nat.min (8 - length t) (length (x :: c))) with 1%nat
        by (cbn [length]; lia).
      cbn [firstn skipn]. f_equal. rewrite <- Hw1.
      unfold s1. destruct s. reflexivity.
    + rewrite (IH (t ++ [x]) s1).
      * rewrite length_app. cbn [length].
        replace (Nat.min (8 - length t) (S (length c)))
          with (S (Nat.min (8 - (length t + 1)) (length c))) by lia.
        cbn [firstn skipn]. rewrite <- app_assoc. cbn [app]. f_equal.
        rewrite Hc1, wrap64_add_l.
        replace (cnt s + 1 + Z.of_nat (Nat.min (8 - (length t + 1)) (length c)))
          with (cnt s + Z.of_nat (S (Nat.min (8 - (length t + 1)) (length c))))
          by lia.
        unfold s1. destruct s. reflexivity.
      * rewrite length_app. cbn [length]. lia.
      * repeat split.
        -- rewrite Hc1. apply wrap64_range.
        -- rewrite Hc1. apply wrap64_range.
        -- rewrite Hc1, Hnext, length_app. cbn [length]. lia.
        -- exact Hw1.
Qed.

(** ** One [update] after another *)

Lemma absorbed_carrying (s0 : SipHash) (m : list byte) :
  Z.land (cnt s0) 7 = 0 -> carrying (absorbed s0 m) (remainder m).
Proof.
  intros H0. repeat split.
  - rewrite absorbed_cnt. apply wrap64_range.
  - rewrite absorbed_cnt. apply wrap64_range.
  - rewrite absorbed_cnt, land7_mod8, wrap64_mod8, remainder_length.
    rewrite land7_mod8 in H0. Z.div_mod_to_equations. lia.
  - apply absorbed_word.
Qed.

Lemma absorbed_absorbed (s0 : SipHash) (m c : list byte) :
  remainder m = [] -> absorbed (absorbed s0 m) c = absorbed s0 (m ++ c).
Proof.
  intros Hr. destruct (parse_app m c) as [Hp Hq]. rewrite Hr in Hp, Hq.
  apply SipHash_eq.
  - rewrite !absorbed_lanes, Hp, fold_left_app. reflexivity.
  - rewrite !absorbed_cnt, wrap64_add_l, length_app. f_equal. lia.
  - rewrite !absorbed_word, Hq. reflexivity.
Qed.

Lemma update_aligned (s : SipHash) (m : list byte) :
  Z.land (cnt s) 7 = 0 -> update s m = absorbed s m.
Proof.
  intros H. unfold update. apply nonzero_false in H. rewrite H.
  apply update_rest_absorbed.
Qed.

Lemma cnt_set_cnt (s : SipHash) (c : Z) : cnt (set_cnt s c) = c.
Proof. reflexivity. Qed.

Lemma current_word_set_cnt (s : SipHash) (c : Z) :
  current_word (set_cnt s c) = current_word s.
Proof. reflexivity. Qed.

(** A pending word that the input does not complete: [update] returns
    after its first loop. *)
Lemma update_absorbed_short (s0 : SipHash) (m c : list byte) :
  Z.land (cnt s0) 7 = 0 ->
  (0 < length (remainder m))%nat ->
  (length (remainder m) + length c < 8)%nat ->
  update (absorbed s0 m) c = absorbed s0 (m ++ c).
Proof.
  intros H0 Hpos Hshort.
  pose proof (absorbed_carrying s0 m H0) as Hcar.
  pose proof Hcar as (Hu & Hc & Hw).
  unfold update.
  replace (nonzero (Z.land (cnt (absorbed s0 m)) 7)) with true
    by (symmetry; apply nonzero_true; lia).
  rewrite (fill_loop_spec c (remainder m) (absorbed s0 m)) by (auto; lia).
  replace (Nat.min (8 - length (remainder m)) (length c)) with (length c) by lia.
  rewrite firstn_all, skipn_all.
  destruct (parse_app m c) as [Hp Hq].
  destruct (parse_short (remainder m ++ c)) as [Hp' Hq'];
    [rewrite length_app; lia |].
  rewrite Hp', app_nil_r in Hp. rewrite Hq' in Hq.
  assert (Hn : Z.land (wrap64 (cnt (absorbed s0 m) + Z.of_nat (length c))) 7 =
               Z.of_nat (length (remainder m) + length c)).
  { rewrite land7_mod8, wrap64_mod8. rewrite land7_mod8 in Hc.
    Z.div_mod_to_equations. lia. }
  rewrite cnt_set_current_word, cnt_set_cnt.
  replace (nonzero (Z.land (wrap64 (cnt (absorbed s0 m) + Z.of_nat (length c))) 7))
    with true by (symmetry; apply nonzero_true; lia).
  apply SipHash_eq.
  - rewrite lanes_set_current_word, lanes_set_cnt, !absorbed_lanes, Hp. reflexivity.
  - rewrite cnt_set_current_word, cnt_set_cnt, !absorbed_cnt, wrap64_add_l, length_app.
    apply (f_equal wrap64). lia.
  - rewrite current_word_set_current_word, absorbed_word, Hq. reflexivity.
Qed.

(** A pending word that the input completes: it is compressed, and the
    rest of the input is taken in from an engine with nothing pending. *)
Lemma update_absorbed_long (s0 : SipHash) (m c : list byte) :
  Z.land (cnt s0) 7 = 0 ->
  (0 < length (remainder m))%nat ->
  (8 <= length (remainder m) + length c)%nat ->
  update (absorbed s0 m) c = absorbed s0 (m ++ c).
Proof.
  intros H0 Hpos Hlong.
  pose proof (absorbed_carrying s0 m H0) as Hcar.
  pose proof Hcar as (Hu & Hc & Hw).
  destruct (length_parse_remainder m) as [_ Hlt].
  unfold update.
  replace (nonzero (Z.land (cnt (absorbed s0 m)) 7)) with true
    by (symmetry; apply nonzero_true; lia).
  rewrite (fill_loop_spec c (remainder m) (absorbed s0 m)) by (auto; lia).
  replace (Nat.min (8 - length (remainder m)) (length c))
    with (8 - length (remainder m))%nat by lia.
  set (k := (8 - length (remainder m))%nat).
  assert (Hn : Z.land (wrap64 (cnt (absorbed s0 m) + Z.of_nat k)) 7 = 0).
  { rewrite land7_mod8, wrap64_mod8. rewrite land7_mod8 in Hc.
    unfold k. Z.div_mod_to_equations. lia. }
  rewrite cnt_set_current_word, cnt_set_cnt.
  replace (nonzero (Z.land (wrap64 (cnt (absorbed s0 m) + Z.of_nat k)) 7))
    with false by (symmetry; apply nonzero_false; exact Hn).
  rewrite update_rest_absorbed.
  destruct (parse_app m c) as [Hp Hq].
  assert (Hsplit : remainder m ++ c = (remainder m ++ firstn k c) ++ skipn k c)
    by (rewrite <- app_assoc, firstn_skipn; reflexivity).
  destruct (parse_word (remainder m ++ firstn k c) (skipn k c)) as [Hp' Hq'].
  { rewrite length_app, length_firstn. unfold k. lia. }
  rewrite Hsplit, Hp' in Hp. rewrite Hsplit, Hq' in Hq.
  apply SipHash_eq.
  - rewrite !absorbed_lanes, mix_lanes, Hp, fold_left_app, fold_left_cons.
    rewrite lanes_set_current_word, lanes_set_cnt, current_word_set_current_word.
    rewrite absorbed_lanes. reflexivity.
  - rewrite absorbed_cnt, mix_cnt, cnt_set_current_word, cnt_set_cnt, !absorbed_cnt.
    rewrite !wrap64_add_l, <- Z.add_assoc, wrap64_add_l, length_app, length_skipn.
    apply (f_equal wrap64). unfold k. lia.
  - rewrite !absorbed_word, Hq. reflexivity.
Qed.

(** The state after [update] is the state of one engine that has taken in
    the two inputs one after the other. *)
Lemma update_absorbed (s0 : SipHash) (m c : list byte) :
  Z.land (cnt s0) 7 = 0 ->
  update (absorbed s0 m) c = absorbed s0 (m ++ c).
Proof.
  intros H0.
  destruct (remainder m) as [| x r] eqn:Er.
  - rewrite update_aligned.
    + apply absorbed_absorbed, Er.
    + pose proof (absorbed_carrying s0 m H0) as (_ & Hc & _).
      rewrite Er in Hc. exact Hc.
  - destruct (Nat.lt_ge_cases (length (remainder m) + length c) 8) as [Hs | Hl].
    + apply update_absorbed_short; [exact H0 | rewrite Er; cbn [length]; lia | exact Hs].
    + apply update_absorbed_long; [exact H0 | rewrite Er; cbn [length]; lia | exact Hl].
Qed.

Lemma absorbed_nil (s0 : SipHash) :
  is_u64 (cnt s0) -> current_word s0 = 0 -> absorbed s0 [] = s0.
Proof.
  intros Hu Hw. apply SipHash_eq.
  - rewrite absorbed_lanes. reflexivity.
  - rewrite absorbed_cnt. cbn [length]. change (Z.of_nat 0) with 0.
    rewrite Z.add_0_r. apply wrap64_small, Hu.
  - rewrite absorbed_word, Hw. reflexivity.
Qed.

Lemma updates_absorbed (s0 : SipHash) (chunks : list (list byte)) :
  Z.land (cnt s0) 7 = 0 -> forall m : list byte,
  updates (absorbed s0 m) chunks = absorbed s0 (m ++ concat chunks).
Proof.
  intros H0. induction chunks as [| c chunks IH]; intros m.
  - cbn [updates fold_left concat]. rewrite app_nil_r. reflexivity.
  - unfold updates in *. cbn [fold_left concat].
    rewrite update_absorbed by exact H0. rewrite IH, app_assoc. reflexivity.
Qed.

(** The constructor leaves an engine with no pending byte. *)
Lemma ctor_absorbed (k0 k1 : Z) :
  absorbed (SipHash_ctor k0 k1) [] = SipHash_ctor k0 k1.
Proof.
  apply absorbed_nil; [unfold is_u64; cbn [cnt SipHash_ctor]; lia | reflexivity].
Qed.

(** Any sequence of [update] calls on a fresh engine leaves it in the state
    [absorbed] of the concatenated input. *)
Lemma updates_ctor (k0 k1 : Z) (chunks : list (list byte)) :
  updates (SipHash_ctor k0 k1) chunks =
  absorbed (SipHash_ctor k0 k1) (concat chunks).
Proof.
  rewrite <- (ctor_absorbed k0 k1) at 1.
  rewrite updates_absorbed by reflexivity. reflexivity.
Qed.

Lemma update_ctor (k0 k1 : Z) (m : list byte) :
  update (SipHash_ctor k0 k1) m = absorbed (SipHash_ctor k0 k1) m.
Proof. apply update_aligned. reflexivity. Qed.

(** ** Streaming equivalence *)

(** C1.  For every seed, every byte string and every way of cutting it into
    chunks (empty chunks, single bytes and cuts at offsets that are not
    multiples of 8 included), calling [update] once per chunk leaves the
    engine in the same state as one [update] with the whole string, so
    [get64] and both forms of [get128] return the same digests. *)
Theorem streaming_equivalence (k0 k1 : Z) (chunks : list (list byte)) :
  updates (SipHash_ctor k0 k1) chunks =
    update (SipHash_ctor k0 k1) (concat chunks) /\
  fst (get64 (updates (SipHash_ctor k0 k1) chunks)) =
    fst (get64 (update (SipHash_ctor k0 k1) (concat chunks))) /\
  fst (get128 (updates (SipHash_ctor k0 k1) chunks)) =
    fst (get128 (update (SipHash_ctor k0 k1) (concat chunks))) /\
  fst (get128_out (updates (SipHash_ctor k0 k1) chunks)) =
    fst (get128_out (update (SipHash_ctor k0 k1) (concat chunks))).
Proof.
  assert (E : updates (SipHash_ctor k0 k1) chunks =
              update (SipHash_ctor k0 k1) (concat chunks))
    by (rewrite updates_ctor, update_ctor; reflexivity).
  rewrite E. repeat split; reflexivity.
Qed.

(** ** A call with no input *)

(** C10.  On every engine reached from the constructor by [update] calls,
    [update] with [size = 0] changes no field: with a pending partial word
    it returns after the first loop, and with none pending the carry word
    it rewrites to 0 was 0 already. *)
Theorem update_empty_identity (k0 k1 : Z) (chunks : list (list byte)) :
  let s := updates (SipHash_ctor k0 k1) chunks in
  update s [] = s /\
  (Z.land (cnt s) 7 = 0 ->
   current_word s = 0 /\ update s [] = update_rest s [] /\ update_rest s [] = s) /\
  (Z.land (cnt s) 7 <> 0 ->
   update s [] = fst (fill_loop s []) /\ fill_loop s [] = (s, [])).
Proof.
  intros s.
  assert (E : update s [] = s).
  { unfold s. rewrite updates_ctor, update_absorbed by reflexivity.
    rewrite app_nil_r. reflexivity. }
  split; [exact E | split].
  - intros H0.
    assert (Er : update s [] = update_rest s []).
    { unfold update. apply nonzero_false in H0. rewrite H0. reflexivity. }
    split; [| split; [exact Er | rewrite <- Er; exact E]].
    unfold s in *. rewrite updates_ctor in *. rewrite absorbed_word.
    pose proof (absorbed_carrying (SipHash_ctor k0 k1) (concat chunks) eq_refl)
      as (_ & Hc & _).
    rewrite H0 in Hc. destruct (remainder (concat chunks)); [reflexivity |].
    cbn [length] in Hc. lia.
  - intros Hn. split; [| reflexivity].
    rewrite E. reflexivity.
Qed.

(** At seed (1, 2), after the chunks [[00 01 02]] and [[03 04 05 06 07]]
    no byte is pending, and the carry word is 0. *)
Lemma update_empty_identity_witness :
  Z.land (cnt (updates (SipHash_ctor 1 2)
                 [[x00; x01; x02]; [x03; x04; x05; x06; x07]])) 7 = 0 /\
  current_word (updates (SipHash_ctor 1 2)
                  [[x00; x01; x02]; [x03; x04; x05; x06; x07]]) = 0.
Proof.
  assert (H0 : Z.land (cnt (updates (SipHash_ctor 1 2)
                 [[x00; x01; x02]; [x03; x04; x05; x06; x07]])) 7 = 0)
    by (vm_compute; reflexivity).
  split; [exact H0 |].
  exact (proj1 (proj1 (proj2 (update_empty_identity 1 2
           [[x00; x01; x02]; [x03; x04; x05; x06; x07]])) H0)).
Defined.

(** ** The bytes of the carry word *)

Lemma get_byte_div (w i : Z) : 0 <= i -> get_byte w i = (w / 2 ^ (8 * i)) mod 256.
Proof.
  intros Hi. unfold get_byte. rewrite Z.shiftr_div_pow2 by lia.
  change 255 with (Z.ones 8). rewrite Z.land_ones by lia. reflexivity.
Qed.

Lemma get_byte_le_word (t : list byte) : forall i : nat,
  get_byte (le_word t) (Z.of_nat i) =
  if (i <? length t)%nat then byte_val (nth i t x00) else 0.
Proof.
  induction t as [| b t IH]; intros i.
  - cbn [le_word length]. rewrite get_byte_div by lia.
    rewrite Z.div_0_l by lia. destruct i; reflexivity.
  - rewrite get_byte_div by lia. rewrite le_word_le64. cbn [Reference.le64].
    rewrite <- le_word_le64. pose proof (byte_val_range b) as Hb.
    destruct i as [| i].
    + cbn [length nth Nat.ltb Nat.leb]. change (8 * Z.of_nat 0) with 0.
      rewrite Z.pow_0_r, Z.div_1_r.
      rewrite (Z.mul_comm 256), Z.mod_add by lia. apply Z.mod_small, Hb.
    + replace (8 * Z.of_nat (S i)) with (8 + 8 * Z.of_nat i) by lia.
      rewrite Z.pow_add_r by lia. rewrite <- Z.div_div by lia.
      change (2 ^ 8) with 256.
      replace ((byte_val b + 256 * le_word t) / 256) with (le_word t)
        by (rewrite (Z.mul_comm 256), Z.div_add by lia;
            rewrite (Z.div_small (byte_val b)) by exact Hb; lia).
      rewrite <- get_byte_div by lia. rewrite IH. cbn [length nth].
      reflexivity.
Qed.

Lemma remainder_nil_of_length (p : list byte) :
  (length p mod 8 = 0)%nat -> remainder p = [].
Proof.
  intros H. destruct (length_parse_remainder p) as [E L].
  apply length_zero_iff_nil.
  rewrite E in H. rewrite Nat.add_comm, Nat.mul_comm, Nat.Div0.mod_add in H.
  rewrite Nat.mod_small in H by exact L. exact H.
Qed.

(** The whole words of a message are those of its longest prefix of whole
    words. *)
Lemma parse_whole_prefix (m : list byte) :
  Reference.parse (firstn (length m - length (remainder m)) m) = Reference.parse m.
Proof.
  destruct (length_parse_remainder m) as [E L].
  set (n := (length m - length (remainder m))%nat).
  assert (Hr : remainder (firstn n m) = []).
  { apply remainder_nil_of_length. rewrite length_firstn.
    replace (Nat.min n (length m)) with (8 * length (Reference.parse m))%nat
      by (unfold n; lia).
    rewrite Nat.mul_comm. apply Nat.Div0.mod_mul. }
  assert (Hsk : skipn n m = remainder m)
    by (unfold n; symmetry; apply remainder_suffix).
  destruct (parse_app (firstn n m) (skipn n m)) as [Hp _].
  rewrite firstn_skipn, Hr in Hp. cbn [app] in Hp. rewrite Hsk in Hp.
  destruct (parse_short (remainder m) L) as [Hs _].
  rewrite Hs, app_nil_r in Hp. symmetry. exact Hp.
Qed.

(** ** The carry-buffer invariant *)

(** C4.  After any sequence of [update] calls on a fresh engine, with
    [total] the number of bytes passed so far: [cnt] is [total] as a [u64]
    (equal to [total] itself while it is below 2^64); [cnt & 7] is
    [total mod 8], the number of input bytes held in the carry buffer; these
    are the last [cnt & 7] bytes of the input, at positions 0 to
    [(cnt & 7) - 1] of the buffer; every buffer byte at position [cnt & 7]
    or above is zero; and the lanes are those of an engine that was given
    only the whole 8-byte words, so the held bytes are not mixed in yet. *)
Theorem carry_buffer_invariant (k0 k1 : Z) (chunks : list (list byte)) :
  let s := updates (SipHash_ctor k0 k1) chunks in
  let m := concat chunks in
  let total := Z.of_nat (length m) in
  let r := Z.land (cnt s) 7 in
  cnt s = wrap64 total /\
  (total < 2 ^ 64 -> cnt s = total) /\
  r = total mod 8 /\
  (forall i, 0 <= i < r ->
     get_byte (current_word s) i =
     byte_val (nth (Z.to_nat (total - r + i)) m x00)) /\
  (forall i, r <= i < 8 -> get_byte (current_word s) i = 0) /\
  lanes_of s =
    lanes_of (update (SipHash_ctor k0 k1) (firstn (Z.to_nat (total - r)) m)).
Proof.
  intros s m total r.
  assert (Es : s = absorbed (SipHash_ctor k0 k1) m) by apply updates_ctor.
  pose proof (absorbed_carrying (SipHash_ctor k0 k1) m eq_refl) as (Hu & Hc & Hw).
  rewrite <- Es in Hu, Hc, Hw. fold r in Hc.
  destruct (length_parse_remainder m) as [El Hlt].
  assert (Hcnt : cnt s = wrap64 total).
  { rewrite Es, absorbed_cnt. reflexivity. }
  split; [exact Hcnt |].
  split; [intros Hsmall; rewrite Hcnt; apply wrap64_small; unfold is_u64, total in *; lia |].
  split; [rewrite Hc; apply remainder_length |].
  split; [| split].
  - intros i Hi. rewrite Hw, <- (Z2Nat.id i) at 1 by lia.
    rewrite get_byte_le_word.
    replace (Z.to_nat i <? length (remainder m))%nat with true
      by (symmetry; apply Nat.ltb_lt; lia).
    rewrite remainder_suffix, nth_skipn. f_equal. f_equal.
    rewrite Hc. unfold total. lia.
  - intros i Hi. rewrite Hw, <- (Z2Nat.id i) by lia.
    rewrite get_byte_le_word.
    replace (Z.to_nat i <? length (remainder m))%nat with false
      by (symmetry; apply Nat.ltb_ge; lia).
    reflexivity.
  - rewrite Es, update_ctor, !absorbed_lanes.
    replace (Z.to_nat (total - r)) with (length m - length (remainder m))%nat
      by (rewrite Hc; unfold total; lia).
    rewrite parse_whole_prefix. reflexivity.
Qed.

(** At seed (1, 2) and the chunks [[00 01 02]] and [[03 04 05 06 07 08]]:
    nine bytes were passed, fewer than 2^64, so [cnt] is 9. *)
Lemma carry_buffer_invariant_witness :
  Z.of_nat (length (concat [[x00; x01; x02]; [x03; x04; x05; x06; x07; x08]]))
    < 2 ^ 64 /\
  cnt (updates (SipHash_ctor 1 2)
         [[x00; x01; x02]; [x03; x04; x05; x06; x07; x08]]) =
  Z.of_nat (length (concat [[x00; x01; x02]; [x03; x04; x05; x06; x07; x08]])).
Proof.
  assert (Hlt : Z.of_nat (length (concat
                  [[x00; x01; x02]; [x03; x04; x05; x06; x07; x08]])) < 2 ^ 64)
    by (vm_compute; reflexivity).
  split; [exact Hlt |].
  exact (proj1 (proj2 (carry_buffer_invariant 1 2
           [[x00; x01; x02]; [x03; x04; x05; x06; x07; x08]])) Hlt).
Defined.

(** ** 64-bit operations *)

Lemma u64_testbit_high (x i : Z) : is_u64 x -> 64 <= i -> Z.testbit x i = false.
Proof. intros Hx Hi. apply (testbit_above x 64 i); [exact Hx | lia]. Qed.

Lemma u64_of_bits (x : Z) :
  0 <= x -> (forall i, 64 <= i -> Z.testbit x i = false) -> is_u64 x.
Proof.
  intros H0 Hb. unfold is_u64. split; [exact H0 |].
  destruct (Z.eq_dec x 0) as [-> | Hne]; [lia |].
  apply Z.log2_lt_pow2; [lia |].
  destruct (Z.lt_ge_cases (Z.log2 x) 64) as [Hlt | Hge]; [exact Hlt |].
  assert (Hl : Z.testbit x (Z.log2 x) = true) by (apply Z.bit_log2; lia).
  rewrite Hb in Hl by exact Hge. discriminate.
Qed.

Lemma lxor_u64 (a b : Z) : is_u64 a -> is_u64 b -> is_u64 (Z.lxor a b).
Proof.
  intros Ha Hb. apply u64_of_bits.
  - apply Z.lxor_nonneg. unfold is_u64 in *. lia.
  - intros i Hi. rewrite Z.lxor_spec.
    rewrite (u64_testbit_high a), (u64_testbit_high b) by assumption.
    reflexivity.
Qed.

Lemma lxor_cancel_r (a b : Z) : Z.lxor (Z.lxor a b) b = a.
Proof. rewrite Z.lxor_assoc, Z.lxor_nilpotent, Z.lxor_0_r. reflexivity. Qed.

Lemma ROTL_u64 (x b : Z) : is_u64 (ROTL x b).
Proof. apply wrap64_range. Qed.

(** [ROTL] is the rotation of the 64 bits of [x] by [b] places to the left:
    bit [i] of the result is bit [i - b], modulo 64, of [x]. *)
Lemma ROTL_testbit (x b i : Z) :
  is_u64 x -> 0 < b < 64 -> 0 <= i < 64 ->
  Z.testbit (ROTL x b) i = Z.testbit x ((i - b) mod 64).
Proof.
  intros Hx Hb Hi. unfold ROTL, wrap64.
  rewrite Z.mod_pow2_bits_low by lia. rewrite Z.lor_spec.
  rewrite Z.mod_pow2_bits_low by lia.
  rewrite Z.shiftr_spec by lia.
  destruct (Z.lt_ge_cases i b) as [Hlt | Hge].
  - rewrite Z.shiftl_spec_low by lia. rewrite orb_false_l.
    f_equal. Z.div_mod_to_equations. lia.
  - rewrite Z.shiftl_spec by lia.
    rewrite (u64_testbit_high x (i + (64 - b))) by (try exact Hx; lia).
    rewrite orb_false_r. f_equal. Z.div_mod_to_equations. lia.
Qed.

Lemma ROTL_inverse (x b : Z) :
  is_u64 x -> 0 < b < 64 -> ROTL (ROTL x b) (64 - b) = x.
Proof.
  intros Hx Hb. apply Z.bits_inj'. intros i Hi.
  destruct (Z.lt_ge_cases i 64) as [Hlt | Hge].
  - rewrite ROTL_testbit by (try apply ROTL_u64; lia).
    rewrite ROTL_testbit by (try exact Hx; try lia; apply Z.mod_pos_bound; lia).
    f_equal. Z.div_mod_to_equations. lia.
  - rewrite (u64_testbit_high (ROTL _ _)) by (try apply ROTL_u64; lia).
    rewrite (u64_testbit_high x) by (try exact Hx; lia). reflexivity.
Qed.

Lemma ROTR_ROTL (x b : Z) : is_u64 x -> 0 < b < 64 -> ROTR (ROTL x b) b = x.
Proof. intros Hx Hb. unfold ROTR. apply ROTL_inverse; assumption. Qed.

Lemma ROTL_ROTR (x b : Z) : is_u64 x -> 0 < b < 64 -> ROTL (ROTR x b) b = x.
Proof.
  intros Hx Hb. unfold ROTR.
  replace b with (64 - (64 - b)) at 2 by lia.
  apply ROTL_inverse; [exact Hx | lia].
Qed.

Lemma ROTR_u64 (x b : Z) : is_u64 (ROTR x b).
Proof. apply ROTL_u64. Qed.

Lemma add64_u64 (a b : Z) : is_u64 (add64 a b).
Proof. apply wrap64_range. Qed.

Lemma sub_add64 (a b : Z) : is_u64 a -> wrap64 (add64 a b - b) = a.
Proof.
  intros Ha. unfold add64, wrap64. rewrite Zminus_mod_idemp_l.
  replace (a + b - b) with a by lia. apply Z.mod_small, Ha.
Qed.

Lemma add64_sub (a b : Z) : is_u64 a -> add64 (wrap64 (a - b)) b = a.
Proof.
  intros Ha. unfold add64, wrap64. rewrite Zplus_mod_idemp_l.
  replace (a - b + b) with a by lia. apply Z.mod_small, Ha.
Qed.



(** ** The mixing round is a permutation of the lanes *)

Lemma SIPROUND_lines (s : SipHash) :
  SIPROUND s = SIPROUND_line4 (SIPROUND_line3 (SIPROUND_line2 (SIPROUND_line1 s))).
Proof. destruct s. reflexivity. Qed.

Lemma SIPROUND_inv_lines (s : SipHash) :
  SIPROUND_inv s =
  SIPROUND_unline1 (SIPROUND_unline2 (SIPROUND_unline3 (SIPROUND_unline4 s))).
Proof. destruct s. reflexivity. Qed.

Ltac lanes_solve :=
  repeat match goal with
         | |- _ /\ _ => split
         | |- is_u64 (ROTL _ _) => apply ROTL_u64
         | |- is_u64 (ROTR _ _) => apply ROTR_u64
         | |- is_u64 (add64 _ _) => apply add64_u64
         | |- is_u64 (wrap64 _) => apply wrap64_range
         | |- is_u64 (Z.lxor _ _) => apply lxor_u64
         | |- is_u64 _ => assumption
         end.

Ltac line_cases s :=
  destruct s as [a b c d n w]; unfold lanes_u64;
  cbn [v0 v1 v2 v3]; intros (Ha & Hb & Hc & Hd).

Lemma line1_u64 (s : SipHash) : lanes_u64 s -> lanes_u64 (SIPROUND_line1 s).
Proof. line_cases s. cbn. lanes_solve. Qed.
Lemma line2_u64 (s : SipHash) : lanes_u64 s -> lanes_u64 (SIPROUND_line2 s).
Proof. line_cases s. cbn. lanes_solve. Qed.
Lemma line3_u64 (s : SipHash) : lanes_u64 s -> lanes_u64 (SIPROUND_line3 s).
Proof. line_cases s. cbn. lanes_solve. Qed.
Lemma line4_u64 (s : SipHash) : lanes_u64 s -> lanes_u64 (SIPROUND_line4 s).
Proof. line_cases s. cbn. lanes_solve. Qed.
Lemma unline1_u64 (s : SipHash) : lanes_u64 s -> lanes_u64 (SIPROUND_unline1 s).
Proof. line_cases s. cbn. lanes_solve. Qed.
Lemma unline2_u64 (s : SipHash) : lanes_u64 s -> lanes_u64 (SIPROUND_unline2 s).
Proof. line_cases s. cbn. lanes_solve. Qed.
Lemma unline3_u64 (s : SipHash) : lanes_u64 s -> lanes_u64 (SIPROUND_unline3 s).
Proof. line_cases s. cbn. lanes_solve. Qed.
Lemma unline4_u64 (s : SipHash) : lanes_u64 s -> lanes_u64 (SIPROUND_unline4 s).
Proof. line_cases s. cbn. lanes_solve. Qed.

Ltac undo_steps :=
  repeat first
    [ rewrite ROTR_ROTL by (lanes_solve; lia)
    | rewrite ROTL_ROTR by (lanes_solve; lia)
    | rewrite lxor_cancel_r
    | rewrite sub_add64 by lanes_solve
    | rewrite add64_sub by lanes_solve ].

Lemma unline1_line1 (s : SipHash) :
  lanes_u64 s -> SIPROUND_unline1 (SIPROUND_line1 s) = s.
Proof. line_cases s. cbn. undo_steps. reflexivity. Qed.
Lemma unline2_line2 (s : SipHash) :
  lanes_u64 s -> SIPROUND_unline2 (SIPROUND_line2 s) = s.
Proof. line_cases s. cbn. undo_steps. reflexivity. Qed.
Lemma unline3_line3 (s : SipHash) :
  lanes_u64 s -> SIPROUND_unline3 (SIPROUND_line3 s) = s.
Proof. line_cases s. cbn. undo_steps. reflexivity. Qed.
Lemma unline4_line4 (s : SipHash) :
  lanes_u64 s -> SIPROUND_unline4 (SIPROUND_line4 s) = s.
Proof. line_cases s. cbn. undo_steps. reflexivity. Qed.
Lemma line1_unline1 (s : SipHash) :
  lanes_u64 s -> SIPROUND_line1 (SIPROUND_unline1 s) = s.
Proof. line_cases s. cbn. undo_steps. reflexivity. Qed.
Lemma line2_unline2 (s : SipHash) :
  lanes_u64 s -> SIPROUND_line2 (SIPROUND_unline2 s) = s.
Proof. line_cases s. cbn. undo_steps. reflexivity. Qed.
Lemma line3_unline3 (s : SipHash) :
  lanes_u64 s -> SIPROUND_line3 (SIPROUND_unline3 s) = s.
Proof. line_cases s. cbn. undo_steps. reflexivity. Qed.
Lemma line4_unline4 (s : SipHash) :
  lanes_u64 s -> SIPROUND_line4 (SIPROUND_unline4 s) = s.
Proof. line_cases s. cbn. undo_steps. reflexivity. Qed.

(** After one round every lane is a [u64], whatever the lanes were. *)
Lemma SIPROUND_u64 (s : SipHash) : lanes_u64 (SIPROUND s).
Proof.
  destruct s as [a b c d n w]. unfold lanes_u64, SIPROUND. cbv zeta.
  cbn [v0 v1 v2 v3]. lanes_solve.
Qed.

Lemma SIPROUND_inv_u64 (s : SipHash) : lanes_u64 s -> lanes_u64 (SIPROUND_inv s).
Proof.
  intros H. rewrite SIPROUND_inv_lines.
  apply unline1_u64, unline2_u64, unline3_u64, unline4_u64, H.
Qed.

Lemma SIPROUND_inv_SIPROUND (s : SipHash) :
  lanes_u64 s -> SIPROUND_inv (SIPROUND s) = s.
Proof.
  intros H. rewrite SIPROUND_lines, SIPROUND_inv_lines.
  rewrite unline4_line4 by (apply line3_u64, line2_u64, line1_u64, H).
  rewrite unline3_line3 by (apply line2_u64, line1_u64, H).
  rewrite unline2_line2 by (apply line1_u64, H).
  apply unline1_line1, H.
Qed.

Lemma SIPROUND_SIPROUND_inv (s : SipHash) :
  lanes_u64 s -> SIPROUND (SIPROUND_inv s) = s.
Proof.
  intros H. rewrite SIPROUND_lines, SIPROUND_inv_lines.
  rewrite line1_unline1 by (apply unline2_u64, unline3_u64, unline4_u64, H).
  rewrite line2_unline2 by (apply unline3_u64, unline4_u64, H).
  rewrite line3_unline3 by (apply unline4_u64, H).
  apply line4_unline4, H.
Qed.


(** ** Bytes written and read back *)

Lemma byte_val_to_u8 (x : Z) : byte_val (to_u8 x) = x mod 256.
Proof.
  assert (Hr : 0 <= x mod 256 < 256) by (apply Z.mod_pos_bound; lia).
  unfold to_u8, byte_val.
  destruct (Byte.of_N (Z.to_N (x mod 256))) as [b |] eqn:E.
  - apply Byte.to_of_N in E. rewrite E. apply Z2N.id. lia.
  - apply Byte.of_N_None_iff in E. lia.
Qed.

Lemma length_le_bytes (n : nat) : forall x : Z, length (le_bytes n x) = n.
Proof.
  induction n as [| n IH]; intros x; cbn [le_bytes length];
    [reflexivity | rewrite IH; reflexivity].
Qed.

Lemma le_word_le_bytes (n : nat) : forall x : Z,
  le_word (le_bytes n x) = x mod 2 ^ (8 * Z.of_nat n).
Proof.
  induction n as [| n IH]; intros x.
  - cbn [le_bytes le_word]. change (8 * Z.of_nat 0) with 0.
    rewrite Z.pow_0_r, Z.mod_1_r. reflexivity.
  - cbn [le_bytes]. rewrite le_word_le64. cbn [Reference.le64].
    rewrite <- le_word_le64, IH, byte_val_to_u8.
    replace (8 * Z.of_nat (S n)) with (8 + 8 * Z.of_nat n) by lia.
    rewrite Z.pow_add_r by lia. change (2 ^ 8) with 256.
    rewrite Z.shiftr_div_pow2 by lia. change (2 ^ 8) with 256.
    rewrite Z.rem_mul_r by lia. reflexivity.
Qed.

Lemma le_word_le_bytes_u64 (x : Z) : is_u64 x -> le_word (le_bytes 8 x) = x.
Proof.
  intros H. rewrite le_word_le_bytes. apply Z.mod_small. exact H.
Qed.

(** Byte [j] of the union after [current_bytes[i] = b]. *)
Lemma get_set_byte (w i j b : Z) :
  0 <= i -> 0 <= j -> 0 <= b < 256 ->
  get_byte (set_byte w i b) j = if i =? j then b else get_byte w j.
Proof.
  intros Hi Hj Hb. unfold get_byte, set_byte.
  assert (Hbits : forall n, 8 <= n -> Z.testbit b n = false)
    by (intros n Hn; apply (testbit_above b 8 n); lia).
  apply Z.bits_inj'. intros n Hn.
  rewrite Z.land_spec, Z.shiftr_spec, Z.lor_spec, Z.land_spec by lia.
  rewrite Z.lnot_spec by lia. change 255 with (Z.ones 8).
  destruct (Z.lt_ge_cases n 8) as [Hlt | Hge].
  - rewrite (Z.ones_spec_low 8 n) by lia. rewrite andb_true_r.
    destruct (Z.eqb_spec i j) as [-> | Hne].
    + rewrite !Z.shiftl_spec by lia.
      replace (n + 8 * j - 8 * j) with n by lia.
      rewrite Z.ones_spec_low by lia. cbn [negb]. rewrite andb_false_r.
      reflexivity.
    + rewrite Z.land_spec, Z.shiftr_spec, Z.ones_spec_low by lia.
      rewrite andb_true_r.
      destruct (Z.lt_ge_cases j i) as [Hji | Hij].
      * rewrite !Z.shiftl_spec_low by lia. cbn [negb].
        rewrite andb_true_r, orb_false_r. reflexivity.
      * rewrite !Z.shiftl_spec by lia.
        rewrite Z.ones_spec_high by lia. rewrite Hbits by lia. cbn [negb].
        rewrite andb_true_r, orb_false_r. reflexivity.
  - rewrite (Z.ones_spec_high 8 n) by lia. rewrite andb_false_r.
    destruct (Z.eqb_spec i j) as [-> | Hne].
    + symmetry. apply Hbits. lia.
    + rewrite Z.land_spec, Z.ones_spec_high by lia. rewrite andb_false_r.
      reflexivity.
Qed.


(** ** Initialization *)

Lemma get_byte_zero (i : Z) : get_byte 0 i = 0.
Proof. unfold get_byte. rewrite Z.shiftr_0_l. apply Z.land_0_l. Qed.

Lemma ctor_lanes (k0 k1 : Z) :
  lanes_of (SipHash_ctor k0 k1) = Reference.initialization k0 k1.
Proof.
  unfold lanes_of, SipHash_ctor, Reference.initialization. cbn [v0 v1 v2 v3].
  rewrite (Z.lxor_comm _ k0), (Z.lxor_comm _ k1).
  rewrite (Z.lxor_comm 0x6c7967656e657261 k0), (Z.lxor_comm 0x7465646279746573 k1).
  reflexivity.
Qed.

(** C5.  For every key pair the constructor, a total function, sets the
    lanes to the four constants XORed with [k0], [k1], [k0], [k1], the byte
    counter to 0 and the carry word to 0 (all eight bytes of the buffer are
    zero); with both arguments defaulted the lanes are the constants
    themselves; and for keys that are [u64] values so are the lanes. *)
Theorem ctor_initialization (k0 k1 : Z) :
  v0 (SipHash_ctor k0 k1) = Z.lxor 0x736f6d6570736575 k0 /\
  v1 (SipHash_ctor k0 k1) = Z.lxor 0x646f72616e646f6d k1 /\
  v2 (SipHash_ctor k0 k1) = Z.lxor 0x6c7967656e657261 k0 /\
  v3 (SipHash_ctor k0 k1) = Z.lxor 0x7465646279746573 k1 /\
  cnt (SipHash_ctor k0 k1) = 0 /\
  current_word (SipHash_ctor k0 k1) = 0 /\
  (forall i, get_byte (current_word (SipHash_ctor k0 k1)) i = 0) /\
  SipHash_default =
    mkSipHash 0x736f6d6570736575 0x646f72616e646f6d
              0x6c7967656e657261 0x7465646279746573 0 0 /\
  (is_u64 k0 -> is_u64 k1 -> lanes_u64 (SipHash_ctor k0 k1)).
Proof.
  do 6 (split; [reflexivity |]).
  split; [intros i; cbn [SipHash_ctor current_word]; apply get_byte_zero |].
  split; [reflexivity |].
  intros Hk0 Hk1. unfold lanes_u64. cbn [SipHash_ctor v0 v1 v2 v3].
  repeat apply conj; (apply lxor_u64; [unfold is_u64; lia | assumption]).
Qed.

(** The key of the published test vectors is a pair of [u64] values, and
    so are the lanes the constructor builds from it. *)
Lemma ctor_initialization_witness :
  (is_u64 0x0706050403020100 /\ is_u64 0x0f0e0d0c0b0a0908) /\
  lanes_u64 (SipHash_ctor 0x0706050403020100 0x0f0e0d0c0b0a0908).
Proof.
  assert (H0 : is_u64 0x0706050403020100) by (unfold is_u64; lia).
  assert (H1 : is_u64 0x0f0e0d0c0b0a0908) by (unfold is_u64; lia).
  split; [split; assumption |].
  exact (proj2 (proj2 (proj2 (proj2 (proj2 (proj2 (proj2 (proj2
           (ctor_initialization 0x0706050403020100 0x0f0e0d0c0b0a0908))))))))
         H0 H1).
Defined.

(** ** Finalization *)

Lemma finalize_unfold (s : SipHash) :
  finalize s =
  SIPROUND (SIPROUND (SIPROUND (SIPROUND
    (set_v2 (mix_current_word (set_current_byte s 7 (cnt s mod 256)))
            (Z.lxor (v2 (mix_current_word (set_current_byte s 7 (cnt s mod 256))))
                    255))))).
Proof. reflexivity. Qed.

Lemma mix_unfold (s : SipHash) :
  mix_current_word s =
  set_v0 (SIPROUND (SIPROUND (set_v3 s (Z.lxor (v3 s) (current_word s)))))
         (Z.lxor (v0 (SIPROUND (SIPROUND (set_v3 s (Z.lxor (v3 s) (current_word s))))))
                 (current_word s)).
Proof.
  unfold mix_current_word. cbv zeta. rewrite !SIPROUND_current_word. reflexivity.
Qed.

Lemma cnt_set_v2 (s : SipHash) (x : Z) : cnt (set_v2 s x) = cnt s.
Proof. reflexivity. Qed.

Lemma current_word_set_v2 (s : SipHash) (x : Z) :
  current_word (set_v2 s x) = current_word s.
Proof. reflexivity. Qed.

Lemma cnt_set_current_byte (s : SipHash) (i b : Z) :
  cnt (set_current_byte s i b) = cnt s.
Proof. reflexivity. Qed.

Lemma current_word_set_current_byte (s : SipHash) (i b : Z) :
  current_word (set_current_byte s i b) = set_byte (current_word s) i b.
Proof. reflexivity. Qed.

Lemma finalize_cnt (s : SipHash) : cnt (finalize s) = cnt s.
Proof.
  rewrite finalize_unfold. do 4 rewrite SIPROUND_cnt.
  rewrite cnt_set_v2, mix_cnt. apply cnt_set_current_byte.
Qed.

Lemma finalize_word (s : SipHash) :
  current_word (finalize s) = set_byte (current_word s) 7 (cnt s mod 256).
Proof.
  rewrite finalize_unfold. do 4 rewrite SIPROUND_current_word.
  rewrite current_word_set_v2, mix_word. apply current_word_set_current_byte.
Qed.

Lemma finalize_u64 (s : SipHash) : lanes_u64 (finalize s).
Proof. rewrite finalize_unfold. apply SIPROUND_u64. Qed.

(** C3.  [finalize] overwrites byte 7 of the pending word with the low 8
    bits of [cnt] (the other seven bytes stay), XORs the resulting word [w]
    into [v3], applies two rounds, XORs [w] into [v0], XORs [0xff] into
    [v2] and applies four rounds; the counter is unchanged and the carry
    word is left as [w]. *)
Theorem finalize_steps (s : SipHash) :
  let w := set_byte (current_word s) 7 (cnt s mod 256) in
  let s1 := set_v3 (set_current_word s w) (Z.lxor (v3 s) w) in
  let s2 := SIPROUND (SIPROUND s1) in
  let s3 := set_v0 s2 (Z.lxor (v0 s2) w) in
  let s4 := set_v2 s3 (Z.lxor (v2 s3) 0xff) in
  finalize s = SIPROUND (SIPROUND (SIPROUND (SIPROUND s4))) /\
  cnt s mod 256 = Z.land (cnt s) 0xff /\
  get_byte w 7 = cnt s mod 256 /\
  (forall i, 0 <= i < 7 -> get_byte w i = get_byte (current_word s) i) /\
  cnt (finalize s) = cnt s /\
  current_word (finalize s) = w.
Proof.
  intros w s1 s2 s3 s4.
  assert (Hr : 0 <= cnt s mod 256 < 256) by (apply Z.mod_pos_bound; lia).
  split; [| split; [| split; [| split; [| split]]]].
  - rewrite finalize_unfold, mix_unfold. reflexivity.
  - change 0xff with (Z.ones 8). rewrite Z.land_ones by lia. reflexivity.
  - unfold w. rewrite get_set_byte by lia. reflexivity.
  - intros i Hi. unfold w. rewrite get_set_byte by lia.
    destruct (Z.eqb_spec 7 i); [lia | reflexivity].
  - apply finalize_cnt.
  - apply finalize_word.
Qed.

(** On the fresh default engine byte 0 of the pending word is unchanged by
    the write of byte 7. *)
Lemma finalize_steps_witness :
  0 <= 0 < 7 /\
  get_byte (set_byte (current_word SipHash_default) 7
              (cnt SipHash_default mod 256)) 0 =
  get_byte (current_word SipHash_default) 0.
Proof.
  assert (H : 0 <= 0 < 7) by lia.
  split; [exact H |].
  exact (proj1 (proj2 (proj2 (proj2 (finalize_steps SipHash_default)))) 0 H).
Defined.

(** ** Digest extraction *)

Lemma get128_out_bytes (s : SipHash) :
  fst (get128_out s) =
  le_bytes 8 (Z.lxor (v0 (finalize s)) (v1 (finalize s))) ++
  le_bytes 8 (Z.lxor (v2 (finalize s)) (v3 (finalize s))).
Proof. reflexivity. Qed.

Lemma length_get128_out (s : SipHash) : length (fst (get128_out s)) = 16%nat.
Proof.
  rewrite get128_out_bytes, length_app, !length_le_bytes. reflexivity.
Qed.

(** C6.  [get64] and both forms of [get128] run [finalize] first and leave
    the finalized engine; [get64] returns [v0 ^ v1 ^ v2 ^ v3] of it, the two
    forms of [get128] give the same pair [lo = v0 ^ v1], [hi = v2 ^ v3], and
    the buffer form writes 16 bytes: [lo] and then [hi], each as a
    little-endian 64-bit word. *)
Theorem digest_extraction (s : SipHash) :
  let f := finalize s in
  let lo := Z.lxor (v0 f) (v1 f) in
  let hi := Z.lxor (v2 f) (v3 f) in
  get64 s = (Z.lxor (Z.lxor (Z.lxor (v0 f) (v1 f)) (v2 f)) (v3 f), f) /\
  get128 s = ((lo, hi), f) /\
  snd (get128_out s) = f /\
  length (fst (get128_out s)) = 16%nat /\
  le_word (firstn 8 (fst (get128_out s))) = lo /\
  le_word (skipn 8 (fst (get128_out s))) = hi /\
  (forall i : nat, (i < 8)%nat ->
     byte_val (nth i (fst (get128_out s)) x00) = get_byte lo (Z.of_nat i) /\
     byte_val (nth (8 + i) (fst (get128_out s)) x00) = get_byte hi (Z.of_nat i)).
Proof.
  intros f lo hi.
  pose proof (finalize_u64 s) as (H0 & H1 & H2 & H3). fold f in H0, H1, H2, H3.
  assert (Hlo : is_u64 lo) by (apply lxor_u64; assumption).
  assert (Hhi : is_u64 hi) by (apply lxor_u64; assumption).
  assert (Eout : fst (get128_out s) = le_bytes 8 lo ++ le_bytes 8 hi)
    by apply get128_out_bytes.
  split; [reflexivity |]. split; [reflexivity |]. split; [reflexivity |].
  rewrite Eout.
  split; [rewrite length_app, !length_le_bytes; reflexivity |].
  split; [| split].
  - rewrite firstn_app, length_le_bytes, Nat.sub_diag.
    rewrite firstn_all2 by (rewrite length_le_bytes; lia).
    cbn [firstn]. rewrite app_nil_r. apply le_word_le_bytes_u64, Hlo.
  - rewrite skipn_app, length_le_bytes, Nat.sub_diag.
    rewrite skipn_all2 by (rewrite length_le_bytes; lia).
    cbn [skipn app]. apply le_word_le_bytes_u64, Hhi.
  - intros i Hi.
    assert (Hi' : (i <? 8)%nat = true) by (apply Nat.ltb_lt; exact Hi).
    split.
    + rewrite app_nth1 by (rewrite length_le_bytes; exact Hi).
      rewrite <- (le_word_le_bytes_u64 lo Hlo) at 2.
      rewrite get_byte_le_word, length_le_bytes, Hi'. reflexivity.
    + rewrite app_nth2 by (rewrite length_le_bytes; lia).
      rewrite length_le_bytes. replace (8 + i - 8)%nat with i by lia.
      rewrite <- (le_word_le_bytes_u64 hi Hhi) at 2.
      rewrite get_byte_le_word, length_le_bytes, Hi'. reflexivity.
Qed.

(** On the fresh default engine: byte 3 of the output buffer is byte 3 of
    the low word. *)
Lemma digest_extraction_witness :
  byte_val (nth 3 (fst (get128_out SipHash_default)) x00) =
  get_byte (Z.lxor (v0 (finalize SipHash_default)) (v1 (finalize SipHash_default)))
           (Z.of_nat 3).
Proof.
  pose proof (digest_extraction SipHash_default) as H. cbv zeta in H.
  destruct H as (_ & _ & _ & _ & _ & _ & H).
  destruct (H 3%nat ltac:(lia)) as [H3 _]. exact H3.
Defined.



(** ** Agreement with the reference function *)

Lemma le_word_zeros (k : nat) : le_word (repeat x00 k) = 0.
Proof.
  induction k as [| k IH]; [reflexivity |].
  cbn [repeat le_word]. rewrite IH. reflexivity.
Qed.

(** The word that [finalize] compresses last is the last word of the padded
    message: the pending bytes, null bytes, and the length modulo 256. *)
Lemma last_word (t : list byte) (n : Z) :
  (length t < 8)%nat ->
  set_byte (le_word t) 7 (n mod 256) =
  le_word (t ++ repeat x00 (7 - length t) ++ [to_u8 n]).
Proof.
  intros Ht.
  assert (Hsmall : 0 <= le_word t < 2 ^ (8 * 7)).
  { pose proof (le_word_range t) as R.
    assert (2 ^ (8 * Z.of_nat (length t)) <= 2 ^ (8 * 7))
      by (apply Z.pow_le_mono_r; lia).
    lia. }
  rewrite set_byte_clear by (try apply get_byte_small; try exact Hsmall; lia).
  rewrite !le_word_app, le_word_zeros, Z.lor_0_l, repeat_length.
  cbn [le_word]. rewrite Z.shiftl_0_l, Z.lor_0_r, byte_val_to_u8.
  rewrite Z.shiftl_shiftl by lia. f_equal. f_equal. lia.
Qed.

Lemma lanes_set_current_byte (s : SipHash) (i b : Z) :
  lanes_of (set_current_byte s i b) = lanes_of s.
Proof. reflexivity. Qed.

Lemma lanes_of_inv (s : SipHash) (a b c d : Z) :
  lanes_of s = (a, b, c, d) -> v0 s = a /\ v1 s = b /\ v2 s = c /\ v3 s = d.
Proof.
  destruct s as [a' b' c' d' n w]. unfold lanes_of. cbn [v0 v1 v2 v3].
  intros E. injection E as -> -> -> ->. repeat split.
Qed.

Lemma lanes_set_v2 (s : SipHash) (x : Z) :
  lanes_of (set_v2 s x) = (v0 s, v1 s, x, v3 s).
Proof. reflexivity. Qed.

(** The lanes after [finalize] in terms of the reference steps. *)
Lemma finalize_lanes (s : SipHash) :
  lanes_of (finalize s) =
  Nat.iter 4 Reference.SipRound
    (let '(a, b, c, d) :=
       Reference.compression 2 (lanes_of s)
         (set_byte (current_word s) 7 (cnt s mod 256)) in
     (a, b, Z.lxor c 0xff, d)).
Proof.
  rewrite finalize_unfold. do 4 rewrite SIPROUND_lanes.
  rewrite lanes_set_v2.
  pose proof (mix_lanes (set_current_byte s 7 (cnt s mod 256))) as M.
  rewrite lanes_set_current_byte, current_word_set_current_byte in M.
  destruct (Reference.compression 2 (lanes_of s) _) as [[[a b] c] d].
  apply lanes_of_inv in M. destruct M as (M0 & M1 & M2 & M3).
  rewrite M0, M1, M2, M3. reflexivity.
Qed.

(** The digest of [get64] in terms of the reference steps. *)
Lemma get64_finalization (s : SipHash) :
  fst (get64 s) =
  Reference.finalization 4
    (Reference.compression 2 (lanes_of s)
       (set_byte (current_word s) 7 (cnt s mod 256))).
Proof.
  pose proof (finalize_lanes s) as L.
  assert (G : fst (get64 s) =
              Z.lxor (Z.lxor (Z.lxor (v0 (finalize s)) (v1 (finalize s)))
                             (v2 (finalize s))) (v3 (finalize s)))
    by reflexivity.
  rewrite G. unfold Reference.finalization.
  destruct (Reference.compression 2 (lanes_of s) _) as [[[a b] c] d].
  destruct (Nat.iter 4 Reference.SipRound (a, b, Z.lxor c 255, d))
    as [[[a' b'] c'] d'].
  apply lanes_of_inv in L. destruct L as (L0 & L1 & L2 & L3).
  rewrite L0, L1, L2, L3. reflexivity.
Qed.

Lemma length_remainder_mod (m : list byte) :
  length (remainder m) = (length m mod 8)%nat.
Proof.
  destruct (length_parse_remainder m) as [E L].
  apply (Nat.mod_unique _ _ (length (Reference.parse m))); [exact L | exact E].
Qed.

(** The engine computes SipHash-2-4. *)
Lemma get64_reference (k0 k1 : Z) (m : list byte) :
  fst (get64 (update (SipHash_ctor k0 k1) m)) = Reference.siphash_2_4 k0 k1 m.
Proof.
  rewrite update_ctor, get64_finalization.
  rewrite absorbed_lanes, absorbed_word, absorbed_cnt, ctor_lanes.
  unfold Reference.siphash_2_4, Reference.siphash. cbv zeta.
  destruct (length_parse_remainder m) as [_ Hlt].
  destruct (parse_app m (Reference.padding (length m))) as [Hp _].
  destruct (parse_word (remainder m ++ Reference.padding (length m)) [])
    as [Hw _].
  { unfold Reference.padding.
    rewrite !length_app, repeat_length, <- length_remainder_mod.
    cbn [length]. lia. }
  rewrite app_nil_r in Hw. rewrite Hw in Hp. rewrite Hp.
  rewrite fold_left_app. cbn [Reference.parse fold_left].
  f_equal. f_equal.
  cbn [cnt SipHash_ctor]. rewrite Z.add_0_l, wrap64_mod256.
  unfold Reference.padding. rewrite <- length_remainder_mod.
  apply last_word, Hlt.
Qed.

(** C2.  For every key and input, [get64] after one [update] on a fresh
    engine is the SipHash-2-4 reference function (little-endian words, two
    rounds per word, the length in the top byte of the last word, four
    finalization rounds); with the key of the published known-answer test it
    gives the 64 published outputs, for the empty message, the one-byte
    message and the messages of up to 63 bytes. *)
Theorem known_answer (k0 k1 : Z) (m : list byte) :
  fst (get64 (update (SipHash_ctor k0 k1) m)) = Reference.siphash_2_4 k0 k1 m /\
  map (fun n => fst (get64 (update (SipHash_ctor test_key0 test_key1)
                                   (test_message n))))
      (seq 0 64) = official_vectors.
Proof.
  split.
  - apply get64_reference.
  - vm_compute. reflexivity.
Qed.


(** ** The mixing round *)

Lemma SIPROUND_formula (s : SipHash) :
  lanes_of (SIPROUND s) =
  (let t0 := add64 (v0 s) (v1 s) in
   let t1 := Z.lxor (ROTL (v1 s) 13) t0 in
   let t2 := add64 (v2 s) (v3 s) in
   let t3 := Z.lxor (ROTL (v3 s) 16) t2 in
   let u0 := add64 (ROTL t0 32) t3 in
   let u2 := add64 t2 t1 in
   (u0, Z.lxor (ROTL t1 17) u2, ROTL u2 32, Z.lxor (ROTL t3 21) u0)).
Proof. destruct s. reflexivity. Qed.

(** C7.  [SIPROUND] changes only the four lanes and is SipRound: additions
    modulo 2^64, XORs and left rotations by 13, 32, 16, 21, 17 and 32 in the
    order of the published round; [ROTL] rotates the 64 bits of a word; on
    lanes that are [u64] values the round is a bijection, undone by
    [SIPROUND_inv]; each whole 8-byte word of the stream is compressed with
    exactly two rounds; and [finalize] applies two rounds for the length
    word and then exactly four. *)
Theorem mixing_round (s : SipHash) :
  lanes_of (SIPROUND s) = Reference.SipRound (lanes_of s) /\
  lanes_of (SIPROUND s) =
    (let t0 := add64 (v0 s) (v1 s) in
     let t1 := Z.lxor (ROTL (v1 s) 13) t0 in
     let t2 := add64 (v2 s) (v3 s) in
     let t3 := Z.lxor (ROTL (v3 s) 16) t2 in
     let u0 := add64 (ROTL t0 32) t3 in
     let u2 := add64 t2 t1 in
     (u0, Z.lxor (ROTL t1 17) u2, ROTL u2 32, Z.lxor (ROTL t3 21) u0)) /\
  cnt (SIPROUND s) = cnt s /\
  current_word (SIPROUND s) = current_word s /\
  (forall a b, add64 a b = (a + b) mod 2 ^ 64) /\
  (forall x b i, is_u64 x -> 0 < b < 64 -> 0 <= i < 64 ->
     Z.testbit (ROTL x b) i = Z.testbit x ((i - b) mod 64)) /\
  lanes_u64 (SIPROUND s) /\
  (lanes_u64 s ->
     SIPROUND_inv (SIPROUND s) = s /\ SIPROUND (SIPROUND_inv s) = s /\
     lanes_u64 (SIPROUND_inv s)) /\
  lanes_of (mix_current_word s) =
    Reference.compression 2 (lanes_of s) (current_word s) /\
  (forall k0 k1 chunks,
     lanes_of (updates (SipHash_ctor k0 k1) chunks) =
     fold_left (Reference.compression 2) (Reference.parse (concat chunks))
               (Reference.initialization k0 k1)) /\
  lanes_of (finalize s) =
    Nat.iter 4 Reference.SipRound
      (let '(a, b, c, d) :=
         Reference.compression 2 (lanes_of s)
           (set_byte (current_word s) 7 (cnt s mod 256)) in
       (a, b, Z.lxor c 0xff, d)).
Proof.
  split; [apply SIPROUND_lanes |].
  split; [apply SIPROUND_formula |].
  split; [apply SIPROUND_cnt |].
  split; [apply SIPROUND_current_word |].
  split; [reflexivity |].
  split; [exact ROTL_testbit |].
  split; [apply SIPROUND_u64 |].
  split.
  { intros H. split; [apply SIPROUND_inv_SIPROUND, H |].
    split; [apply SIPROUND_SIPROUND_inv, H | apply SIPROUND_inv_u64, H]. }
  split; [apply mix_lanes |].
  split.
  { intros k0 k1 chunks.
    rewrite updates_ctor, absorbed_lanes, ctor_lanes. reflexivity. }
  apply finalize_lanes.
Qed.

(** The lanes 1, 2, 3, 4 are [u64] values, and on them the inverse round
    undoes the round. *)
Lemma mixing_round_witness :
  lanes_u64 (mkSipHash 1 2 3 4 0 0) /\
  SIPROUND_inv (SIPROUND (mkSipHash 1 2 3 4 0 0)) = mkSipHash 1 2 3 4 0 0.
Proof.
  assert (H : lanes_u64 (mkSipHash 1 2 3 4 0 0))
    by (unfold lanes_u64, is_u64; cbn [v0 v1 v2 v3]; lia).
  split; [exact H |].
  exact (proj1 (proj1 (proj2 (proj2 (proj2 (proj2 (proj2 (proj2 (proj2
           (mixing_round (mkSipHash 1 2 3 4 0 0))))))))) H)).
Defined.

(** ** The free functions *)

Lemma length_list_byte_of_string (s : String.string) :
  length (String.list_byte_of_string s) = String.length s.
Proof.
  unfold String.list_byte_of_string. rewrite length_map.
  induction s as [| a s IH]; cbn [String.list_ascii_of_string String.length length];
    [reflexivity | rewrite IH; reflexivity].
Qed.

(** C8.  [sipHash64(data, size)] is [get64] after one [update] with the
    whole input on a fresh engine with the zero seed, and so the SipHash-2-4
    of the input under the zero key, also when the input is passed in
    chunks; [sipHash128] writes the 16 bytes that [get128(out)] writes for
    the same engine; and [sipHash64] of a string is [sipHash64] of its bytes
    with its size. *)
Theorem wrappers (data : list byte) (str : String.string) :
  sipHash64 data = fst (get64 (update (SipHash_ctor 0 0) data)) /\
  sipHash128 data = fst (get128_out (update (SipHash_ctor 0 0) data)) /\
  length (sipHash128 data) = 16%nat /\
  sipHash64_string str = sipHash64 (String.list_byte_of_string str) /\
  length (String.list_byte_of_string str) = String.length str /\
  sipHash64 data = Reference.siphash_2_4 0 0 data /\
  (forall chunks, concat chunks = data ->
     fst (get64 (updates (SipHash_ctor 0 0) chunks)) = sipHash64 data /\
     fst (get128_out (updates (SipHash_ctor 0 0) chunks)) = sipHash128 data).
Proof.
  assert (E64 : sipHash64 data = fst (get64 (update (SipHash_ctor 0 0) data)))
    by reflexivity.
  assert (E128 : sipHash128 data =
                 fst (get128_out (update (SipHash_ctor 0 0) data)))
    by reflexivity.
  split; [exact E64 |]. split; [exact E128 |].
  split.
  { rewrite E128. apply length_get128_out. }
  split; [reflexivity |].
  split; [apply length_list_byte_of_string |].
  split; [rewrite E64; apply get64_reference |].
  intros chunks <-. rewrite E64, E128, updates_ctor, update_ctor.
  split; reflexivity.
Qed.

(** The bytes [61 62 63] passed as the chunks [[61]] and [[62 63]]. *)
Lemma wrappers_witness :
  fst (get64 (updates (SipHash_ctor 0 0) [[x61]; [x62; x63]])) =
  sipHash64 [x61; x62; x63].
Proof.
  refine (proj1 (proj2 (proj2 (proj2 (proj2 (proj2 (proj2
    (wrappers [x61; x62; x63] String.EmptyString)))))) [[x61]; [x62; x63]] _)).
  reflexivity.
Defined.


(** ** Bounded input access *)

Lemma bind_Ok {A B : Type} (a : A) (k : A -> Checked.result B) :
  Checked.bind (Checked.Ok a) k = k a.
Proof. reflexivity. Qed.

(** A read inside the part of the buffer that is still ahead succeeds. *)
Lemma read_ahead (pre d : list byte) (j : nat) (b : byte) :
  nth_error d j = Some b ->
  Checked.read (pre ++ d) (length pre + j) = Checked.Ok b.
Proof.
  intros H. unfold Checked.read.
  rewrite nth_error_app2 by lia.
  replace (length pre + j - length pre)%nat with j by lia.
  rewrite H. reflexivity.
Qed.

Lemma read_here (pre d : list byte) (b : byte) :
  Checked.read (pre ++ b :: d) (length pre) = Checked.Ok b.
Proof.
  rewrite <- (Nat.add_0_r (length pre)). apply read_ahead. reflexivity.
Qed.

(** A read at or past the end of the buffer is reported. *)
Lemma read_past (buf : list byte) (j : nat) :
  Checked.read buf (length buf + j) = Checked.OutOfBounds.
Proof.
  unfold Checked.read.
  replace (nth_error buf (length buf + j)) with (@None byte)
    by (symmetry; apply nth_error_None; lia).
  reflexivity.
Qed.

Lemma read_u64_ahead (pre : list byte) (b0 b1 b2 b3 b4 b5 b6 b7 : byte)
      (l : list byte) :
  Checked.read_u64 (pre ++ b0 :: b1 :: b2 :: b3 :: b4 :: b5 :: b6 :: b7 :: l)
                   (length pre) =
  Checked.Ok (le_word [b0; b1; b2; b3; b4; b5; b6; b7]).
Proof.
  unfold Checked.read_u64.
  rewrite read_here, bind_Ok.
  rewrite (read_ahead pre _ 1 b1), bind_Ok by reflexivity.
  rewrite (read_ahead pre _ 2 b2), bind_Ok by reflexivity.
  rewrite (read_ahead pre _ 3 b3), bind_Ok by reflexivity.
  rewrite (read_ahead pre _ 4 b4), bind_Ok by reflexivity.
  rewrite (read_ahead pre _ 5 b5), bind_Ok by reflexivity.
  rewrite (read_ahead pre _ 6 b6), bind_Ok by reflexivity.
  rewrite (read_ahead pre _ 7 b7), bind_Ok by reflexivity.
  reflexivity.
Qed.

Lemma chk_fill_loop_S (buf : list byte) (n : nat) (s : SipHash) (p : nat) :
  Checked.fill_loop buf (S n) s p =
  if nonzero (Z.land (cnt s) 7) then
    Checked.bind (Checked.read buf p) (fun b =>
      Checked.fill_loop buf n
        (set_cnt (set_current_byte s (Z.land (cnt s) 7) (byte_val b))
                 (wrap64 (cnt s + 1))) (p + 1))
  else Checked.Ok (s, p).
Proof. reflexivity. Qed.

Lemma chk_word_loop_8 (buf : list byte) (n : nat) (s : SipHash) (p : nat) :
  Checked.word_loop buf (S (S (S (S (S (S (S (S n)))))))) s p =
  Checked.bind (Checked.read_u64 buf p) (fun w =>
    Checked.word_loop buf n (mix_current_word (set_current_word s w)) (p + 8)).
Proof. reflexivity. Qed.

Lemma chk_switch_from_S (buf : list byte) (k : nat) (s : SipHash) (p : nat) :
  Checked.switch_from buf (S k) s p =
  Checked.bind (Checked.read buf (p + k)) (fun b =>
    Checked.switch_from buf k (set_current_byte s (Z.of_nat k) (byte_val b)) p).
Proof. reflexivity. Qed.

(** The first loop on the buffer does what it does on the bytes ahead, and
    stops with the pointer that many bytes further. *)
Lemma chk_fill_loop (d : list byte) : forall (pre : list byte) (s : SipHash),
  exists used : list byte,
    d = used ++ snd (fill_loop s d) /\
    Checked.fill_loop (pre ++ d) (length d) s (length pre) =
    Checked.Ok (fst (fill_loop s d), length (pre ++ used)).
Proof.
  induction d as [| x d IH]; intros pre s.
  - exists []. split; [reflexivity | rewrite !app_nil_r; reflexivity].
  - cbn [length]. rewrite chk_fill_loop_S, fill_loop_cons.
    destruct (nonzero (Z.land (cnt s) 7)).
    + rewrite read_here, bind_Ok.
      destruct (IH (pre ++ [x])
                   (set_cnt (set_current_byte s (Z.land (cnt s) 7) (byte_val x))
                            (wrap64 (cnt s + 1)))) as (used & Hd & Hc).
      exists (x :: used). split.
      * cbn [app]. f_equal. exact Hd.
      * rewrite <- app_assoc in Hc. cbn [app] in Hc.
        rewrite length_app in Hc at 1. cbn [length] in Hc.
        rewrite Hc. f_equal. f_equal.
        rewrite <- app_assoc. reflexivity.
    + exists []. split; [reflexivity | rewrite !app_nil_r; reflexivity].
Qed.

(** The second loop likewise. *)
Lemma chk_word_loop (d : list byte) : forall (pre : list byte) (s : SipHash),
  exists used : list byte,
    d = used ++ snd (word_loop s d) /\
    Checked.word_loop (pre ++ d) (length d) s (length pre) =
    Checked.Ok (fst (word_loop s d), length (pre ++ used)).
Proof.
  induction d as [l H | b0 b1 b2 b3 b4 b5 b6 b7 l IH] using list_ind8;
    intros pre s.
  - exists []. rewrite !app_nil_r.
    destruct l as [| c0 [| c1 [| c2 [| c3 [| c4 [| c5 [| c6 [| c7 l]]]]]]]];
      cbn [length] in H; try lia; split; reflexivity.
  - cbn [length]. rewrite chk_word_loop_8, word_loop_cons8.
    rewrite read_u64_ahead, bind_Ok.
    destruct (IH (pre ++ [b0; b1; b2; b3; b4; b5; b6; b7])
                 (mix_current_word
                    (set_current_word s (le_word [b0; b1; b2; b3; b4; b5; b6; b7]))))
      as (used & Hd & Hc).
    exists (b0 :: b1 :: b2 :: b3 :: b4 :: b5 :: b6 :: b7 :: used). split.
    + cbn [app]. do 8 f_equal. exact Hd.
    + rewrite <- app_assoc in Hc. cbn [app] in Hc.
      rewrite length_app in Hc at 1. cbn [length] in Hc.
      rewrite Hc. f_equal. f_equal.
      rewrite <- app_assoc. reflexivity.
Qed.

(** The cases of the [switch] read below the end of the buffer. *)
Lemma chk_switch_from (pre d : list byte) (k : nat) : forall s : SipHash,
  (k <= length d)%nat ->
  Checked.switch_from (pre ++ d) k s (length pre) =
  Checked.Ok (switch_from k s d).
Proof.
  induction k as [| k IH]; intros s Hk.
  - reflexivity.
  - rewrite chk_switch_from_S.
    rewrite (read_ahead pre d k (nth k d x00)) by (apply nth_error_nth'; lia).
    rewrite bind_Ok. rewrite IH by lia. reflexivity.
Qed.

Lemma chk_pad_remainder (pre d : list byte) (s : SipHash) :
  Checked.pad_remainder (pre ++ d) s (length pre) =
  Checked.Ok (pad_remainder s d).
Proof.
  unfold Checked.pad_remainder, pad_remainder. cbv zeta.
  replace (length (pre ++ d) - length pre)%nat with (length d)
    by (rewrite length_app; lia).
  destruct (length d <=? 7)%nat eqn:E; [| reflexivity].
  apply chk_switch_from. lia.
Qed.

Lemma update_rest_unfold (s : SipHash) (d : list byte) :
  update_rest s d =
  pad_remainder
    (fst (word_loop (set_cnt s (wrap64 (cnt s + Z.of_nat (length d)))) d))
    (snd (word_loop (set_cnt s (wrap64 (cnt s + Z.of_nat (length d)))) d)).
Proof.
  unfold update_rest. cbv zeta.
  destruct (word_loop _ d) as [s' d']. reflexivity.
Qed.

Lemma chk_update_rest (pre d : list byte) (s : SipHash) :
  Checked.update_rest (pre ++ d) s (length pre) = Checked.Ok (update_rest s d).
Proof.
  unfold Checked.update_rest. cbv zeta.
  replace (length (pre ++ d) - length pre)%nat with (length d)
    by (rewrite length_app; lia).
  destruct (chk_word_loop d pre
              (set_cnt s (wrap64 (cnt s + Z.of_nat (length d)))))
    as (used & Hd & Hc).
  rewrite Hc, bind_Ok, update_rest_unfold.
  rewrite Hd at 1. rewrite app_assoc. apply chk_pad_remainder.
Qed.

Lemma update_unfold (s : SipHash) (d : list byte) :
  update s d =
  if nonzero (Z.land (cnt s) 7) then
    if nonzero (Z.land (cnt (fst (fill_loop s d))) 7) then fst (fill_loop s d)
    else update_rest (mix_current_word (fst (fill_loop s d))) (snd (fill_loop s d))
  else update_rest s d.
Proof.
  unfold update. destruct (fill_loop s d) as [s' d']. reflexivity.
Qed.

(** The checked [update] never reports a read out of the buffer, and
    computes [update]. *)
Lemma chk_update (s : SipHash) (buf : list byte) :
  Checked.update s buf = Checked.Ok (update s buf).
Proof.
  unfold Checked.update. cbv zeta. rewrite update_unfold.
  destruct (nonzero (Z.land (cnt s) 7)).
  - rewrite Nat.sub_0_r.
    destruct (chk_fill_loop buf [] s) as (used & Hd & Hc).
    cbn [app length] in Hc. rewrite Hc, bind_Ok.
    destruct (nonzero (Z.land (cnt (fst (fill_loop s buf))) 7)); [reflexivity |].
    rewrite Hd at 1. apply chk_update_rest.
  - apply (chk_update_rest [] buf s).
Qed.

(** C9.  For every engine and every buffer, [update(data, size)] with every
    read of the input checked against [size] never reads at an offset that
    is not below [size]: it returns the state of [update], and so does
    [sipHash64] through finalization; a read at [size] or beyond would be
    reported; and the calls with exactly 0, 8, 9 and 16 bytes, evaluated,
    stay in bounds. *)
Theorem bounded_input_access (s : SipHash) (buf : list byte) :
  Checked.update s buf = Checked.Ok (update s buf) /\
  Checked.sipHash64 buf = Checked.Ok (sipHash64 buf) /\
  (forall j, Checked.read buf (length buf + j) = Checked.OutOfBounds) /\
  map (fun n => Checked.sipHash64 (test_message n)) [0; 8; 9; 16]%nat =
    map (fun n => Checked.Ok (sipHash64 (test_message n))) [0; 8; 9; 16]%nat.
Proof.
  split; [apply chk_update |].
  split.
  { change (sipHash64 buf) with (fst (get64 (update SipHash_default buf))).
    unfold Checked.sipHash64. rewrite chk_update.
    exact (bind_Ok (update SipHash_default buf)
                   (fun s0 => Checked.Ok (fst (get64 s0)))). }
  split; [apply read_past |].
  vm_compute. reflexivity.
Qed.


(** * Further properties of the engine *)

(** ** Streaming from the middle of a stream *)

(** X1.  On an engine that has already been fed, by any [update] calls since
    its construction, any further sequence of [update] calls leaves the
    state of a single [update] with the concatenation of their inputs; in
    particular two calls in a row are one call with the two inputs joined. *)
Theorem streaming_mid_stream (k0 k1 : Z) (fed chunks : list (list byte))
        (a b : list byte) :
  updates (updates (SipHash_ctor k0 k1) fed) chunks =
    update (updates (SipHash_ctor k0 k1) fed) (concat chunks) /\
  update (update (updates (SipHash_ctor k0 k1) fed) a) b =
    update (updates (SipHash_ctor k0 k1) fed) (a ++ b) /\
  updates (SipHash_ctor k0 k1) (fed ++ chunks) =
    updates (updates (SipHash_ctor k0 k1) fed) chunks.
Proof.
  rewrite !updates_ctor.
  split; [| split].
  - rewrite updates_absorbed, update_absorbed by reflexivity. reflexivity.
  - rewrite !update_absorbed by reflexivity. rewrite app_assoc. reflexivity.
  - rewrite updates_absorbed by reflexivity. rewrite concat_app. reflexivity.
Qed.

(** ** The byte counter *)

(** What the first loop does to the counter, on any engine: it advances by
    the number of bytes the loop took, and the loop stops at the end of the
    input or at a word boundary. *)
Lemma fill_loop_cnt (d : list byte) : forall s : SipHash,
  is_u64 (cnt s) ->
  (length (snd (fill_loop s d)) <= length d)%nat /\
  cnt (fst (fill_loop s d)) =
    wrap64 (cnt s + Z.of_nat (length d - length (snd (fill_loop s d)))) /\
  (snd (fill_loop s d) = [] \/ Z.land (cnt (fst (fill_loop s d))) 7 = 0).
Proof.
  induction d as [| x d IH]; intros s Hu.
  - cbn [fill_loop fst snd length]. change (Z.of_nat (0 - 0)) with 0.
    rewrite Z.add_0_r, wrap64_small by exact Hu. auto.
  - rewrite fill_loop_cons.
    destruct (nonzero (Z.land (cnt s) 7)) eqn:E.
    + destruct (IH (set_cnt (set_current_byte s (Z.land (cnt s) 7) (byte_val x))
                            (wrap64 (cnt s + 1))))
        as (Hl & Hc & Hx); [rewrite cnt_set_cnt; apply wrap64_range |].
      rewrite cnt_set_cnt in Hc. cbn [length].
      split; [lia |]. split; [| exact Hx].
      rewrite Hc, wrap64_add_l. apply (f_equal wrap64). lia.
    + cbn [fst snd]. rewrite Nat.sub_diag. change (Z.of_nat 0) with 0.
      rewrite Z.add_0_r, wrap64_small by exact Hu.
      split; [lia |]. split; [reflexivity |].
      right. apply nonzero_false, E.
Qed.

(** X10.  On every engine whose counter is a [u64], reached by [update]
    calls or not (a finalized one included), [update(data, size)] advances
    [cnt] by exactly [size] modulo 2^64, whichever of its paths it takes. *)
Theorem update_advances_cnt (s : SipHash) (data : list byte) :
  is_u64 (cnt s) ->
  cnt (update s data) = wrap64 (cnt s + Z.of_nat (length data)).
Proof.
  intros Hu. rewrite update_unfold.
  destruct (nonzero (Z.land (cnt s) 7)) eqn:E0.
  - destruct (fill_loop_cnt data s Hu) as (Hl & Hc & Hx).
    destruct (nonzero (Z.land (cnt (fst (fill_loop s data))) 7)) eqn:E1.
    + destruct Hx as [Hx | Hx].
      * rewrite Hc, Hx. cbn [length]. rewrite Nat.sub_0_r. reflexivity.
      * apply nonzero_true in E1. contradiction.
    + rewrite update_rest_absorbed, absorbed_cnt, mix_cnt, Hc, wrap64_add_l.
      apply (f_equal wrap64). lia.
  - rewrite update_rest_absorbed. apply absorbed_cnt.
Qed.

(** On the engine left by [get64] on a fresh default engine, three more
    bytes advance the counter from 0 to 3. *)
Lemma update_advances_cnt_witness :
  is_u64 (cnt (snd (get64 SipHash_default))) /\
  cnt (update (snd (get64 SipHash_default)) [x01; x02; x03]) =
  wrap64 (cnt (snd (get64 SipHash_default)) + Z.of_nat (length [x01; x02; x03])).
Proof.
  assert (H : is_u64 (cnt (snd (get64 SipHash_default))))
    by (vm_compute; split; [discriminate | reflexivity]).
  split; [exact H |].
  exact (update_advances_cnt (snd (get64 SipHash_default)) [x01; x02; x03] H).
Defined.



(** ** Every field stays a 64-bit value *)

Lemma lanes_u64_quad (s : SipHash) : lanes_u64 s <-> quad_u64 (lanes_of s).
Proof. destruct s. reflexivity. Qed.

Lemma quad_u64_lanes (a b c d n w : Z) :
  quad_u64 (a, b, c, d) -> lanes_u64 (mkSipHash a b c d n w).
Proof. intros H. exact H. Qed.

Lemma lanes_set_v0 (s : SipHash) (x : Z) :
  lanes_of (set_v0 s x) = (x, v1 s, v2 s, v3 s).
Proof. reflexivity. Qed.

Lemma lanes_set_v3 (s : SipHash) (x : Z) :
  lanes_of (set_v3 s x) = (v0 s, v1 s, v2 s, x).
Proof. reflexivity. Qed.

Lemma set_v0_u64 (s : SipHash) (x : Z) :
  lanes_u64 s -> is_u64 x -> lanes_u64 (set_v0 s x).
Proof. destruct s. unfold lanes_u64. cbn. tauto. Qed.

Lemma set_v3_u64 (s : SipHash) (x : Z) :
  lanes_u64 s -> is_u64 x -> lanes_u64 (set_v3 s x).
Proof. destruct s. unfold lanes_u64. cbn. tauto. Qed.

Lemma set_v2_u64 (s : SipHash) (x : Z) :
  lanes_u64 s -> is_u64 x -> lanes_u64 (set_v2 s x).
Proof. destruct s. unfold lanes_u64. cbn. tauto. Qed.

(** Compressing a word that is a [u64] leaves [u64] lanes, whatever the
    lanes were. *)
Lemma mix_u64 (s : SipHash) :
  is_u64 (current_word s) -> lanes_u64 (mix_current_word s).
Proof.
  intros Hw. rewrite mix_unfold.
  pose proof (SIPROUND_u64
                (SIPROUND (set_v3 s (Z.lxor (v3 s) (current_word s))))) as H.
  apply set_v0_u64; [exact H |].
  apply lxor_u64; [apply H | exact Hw].
Qed.

Lemma compression_u64 (v : Reference.lanes) (w : Z) :
  is_u64 w -> quad_u64 (Reference.compression 2 v w).
Proof.
  intros Hw. destruct v as [[[a b] c] d].
  pose proof (mix_lanes (mkSipHash a b c d 0 w)) as M.
  cbn [current_word] in M.
  change (lanes_of (mkSipHash a b c d 0 w)) with (a, b, c, d) in M.
  rewrite <- M. apply lanes_u64_quad, mix_u64. exact Hw.
Qed.

Lemma parse_u64 (m : list byte) : Forall is_u64 (Reference.parse m).
Proof.
  induction m as [l H | b0 b1 b2 b3 b4 b5 b6 b7 l IH] using list_ind8.
  - destruct (parse_short l H) as [-> _]. constructor.
  - rewrite parse_cons8. constructor; [| exact IH].
    rewrite <- le_word_le64. apply le_word_u64. cbn [length]. lia.
Qed.

Lemma fold_compression_u64 (ws : list Z) : forall v : Reference.lanes,
  Forall is_u64 ws -> quad_u64 v ->
  quad_u64 (fold_left (Reference.compression 2) ws v).
Proof.
  induction ws as [| w ws IH]; intros v Hws Hv.
  - exact Hv.
  - rewrite fold_left_cons. inversion Hws as [| ? ? Hw Hws']; subst.
    apply IH; [exact Hws' | apply compression_u64, Hw].
Qed.

Lemma remainder_word_range (m : list byte) :
  0 <= le_word (remainder m) < 2 ^ 56.
Proof.
  destruct (length_parse_remainder m) as [_ Hlt].
  pose proof (le_word_range (remainder m)) as R.
  assert (2 ^ (8 * Z.of_nat (length (remainder m))) <= 2 ^ 56)
    by (apply Z.pow_le_mono_r; lia).
  lia.
Qed.

Lemma get64_u64 (s : SipHash) : is_u64 (fst (get64 s)).
Proof.
  assert (G : fst (get64 s) =
              Z.lxor (Z.lxor (Z.lxor (v0 (finalize s)) (v1 (finalize s)))
                             (v2 (finalize s))) (v3 (finalize s)))
    by reflexivity.
  rewrite G. destruct (finalize_u64 s) as (H0 & H1 & H2 & H3).
  apply lxor_u64; [apply lxor_u64; [apply lxor_u64 |] |]; assumption.
Qed.

Lemma get128_u64 (s : SipHash) :
  is_u64 (fst (fst (get128 s))) /\ is_u64 (snd (fst (get128 s))).
Proof.
  assert (G : fst (get128 s) =
              (Z.lxor (v0 (finalize s)) (v1 (finalize s)),
               Z.lxor (v2 (finalize s)) (v3 (finalize s))))
    by reflexivity.
  rewrite G. cbn [fst snd]. destruct (finalize_u64 s) as (H0 & H1 & H2 & H3).
  split; apply lxor_u64; assumption.
Qed.

(** X4.  With a seed of two [u64] values, every engine reached by [update]
    calls keeps all its fields in their types: the four lanes and [cnt] are
    [u64] values, and the carry word is below 2^56, so that its last byte
    is free for [finalize]; and the digests of [get64] and [get128] are
    [u64] values on every engine. *)
Theorem fields_stay_u64 (k0 k1 : Z) (chunks : list (list byte)) :
  is_u64 k0 -> is_u64 k1 ->
  lanes_u64 (updates (SipHash_ctor k0 k1) chunks) /\
  is_u64 (cnt (updates (SipHash_ctor k0 k1) chunks)) /\
  0 <= current_word (updates (SipHash_ctor k0 k1) chunks) < 2 ^ 56 /\
  lanes_u64 (finalize (updates (SipHash_ctor k0 k1) chunks)) /\
  is_u64 (current_word (finalize (updates (SipHash_ctor k0 k1) chunks))) /\
  (forall s : SipHash,
     is_u64 (fst (get64 s)) /\
     is_u64 (fst (fst (get128 s))) /\ is_u64 (snd (fst (get128 s)))).
Proof.
  intros Hk0 Hk1. rewrite updates_ctor.
  split.
  { apply lanes_u64_quad. rewrite absorbed_lanes, ctor_lanes.
    apply fold_compression_u64; [apply parse_u64 |].
    unfold Reference.initialization, quad_u64.
    repeat apply conj; (apply lxor_u64; [assumption | unfold is_u64; lia]). }
  split; [rewrite absorbed_cnt; apply wrap64_range |].
  split; [rewrite absorbed_word; apply remainder_word_range |].
  split; [apply finalize_u64 |].
  split.
  { rewrite finalize_word, absorbed_word.
    destruct (length_parse_remainder (concat chunks)) as [_ Hlt].
    rewrite (last_word _ _ Hlt). apply le_word_u64.
    rewrite !length_app, repeat_length. cbn [length]. lia. }
  intros s. split; [apply get64_u64 | apply get128_u64].
Qed.

(** With the key of the published test vectors and two chunks. *)
Lemma fields_stay_u64_witness :
  (is_u64 test_key0 /\ is_u64 test_key1) /\
  lanes_u64 (updates (SipHash_ctor test_key0 test_key1)
               [[x00; x01; x02]; [x03; x04; x05; x06; x07; x08]]).
Proof.
  assert (H0 : is_u64 test_key0) by (unfold is_u64, test_key0; lia).
  assert (H1 : is_u64 test_key1) by (unfold is_u64, test_key1; lia).
  split; [split; assumption |].
  exact (proj1 (fields_stay_u64 test_key0 test_key1
                  [[x00; x01; x02]; [x03; x04; x05; x06; x07; x08]] H0 H1)).
Defined.


(** ** No two seeds share a state *)

Lemma cnt_set_v0 (s : SipHash) (x : Z) : cnt (set_v0 s x) = cnt s.
Proof. reflexivity. Qed.

Lemma cnt_set_v3 (s : SipHash) (x : Z) : cnt (set_v3 s x) = cnt s.
Proof. reflexivity. Qed.

Lemma current_word_set_v0 (s : SipHash) (x : Z) :
  current_word (set_v0 s x) = current_word s.
Proof. reflexivity. Qed.

Lemma current_word_set_v3 (s : SipHash) (x : Z) :
  current_word (set_v3 s x) = current_word s.
Proof. reflexivity. Qed.

Lemma set_v0_set_v0 (s : SipHash) (x : Z) :
  set_v0 (set_v0 s x) (v0 s) = s.
Proof. destruct s. reflexivity. Qed.

Lemma set_v3_set_v3 (s : SipHash) (x : Z) :
  set_v3 (set_v3 s x) (v3 s) = s.
Proof. destruct s. reflexivity. Qed.

Lemma v0_set_v0 (s : SipHash) (x : Z) : v0 (set_v0 s x) = x.
Proof. reflexivity. Qed.

Lemma v3_set_v3 (s : SipHash) (x : Z) : v3 (set_v3 s x) = x.
Proof. reflexivity. Qed.

Lemma unmix_unfold (s : SipHash) :
  unmix_current_word s =
  set_v3 (SIPROUND_inv (SIPROUND_inv (set_v0 s (Z.lxor (v0 s) (current_word s)))))
         (Z.lxor (v3 (SIPROUND_inv (SIPROUND_inv
                        (set_v0 s (Z.lxor (v0 s) (current_word s))))))
                 (current_word
                    (SIPROUND_inv (SIPROUND_inv
                       (set_v0 s (Z.lxor (v0 s) (current_word s))))))).
Proof. reflexivity. Qed.

Lemma SIPROUND_inv_current_word (s : SipHash) :
  current_word (SIPROUND_inv s) = current_word s.
Proof. destruct s. reflexivity. Qed.

(** The compression of a word is undone by [unmix_current_word]. *)
Lemma unmix_mix (s : SipHash) :
  lanes_u64 s -> is_u64 (current_word s) ->
  unmix_current_word (mix_current_word s) = s.
Proof.
  intros Hs Hw.
  set (s1 := set_v3 s (Z.lxor (v3 s) (current_word s))).
  assert (H1 : lanes_u64 s1)
    by (apply set_v3_u64; [exact Hs | apply lxor_u64; [apply Hs | exact Hw]]).
  assert (W2 : current_word (SIPROUND (SIPROUND s1)) = current_word s)
    by (do 2 rewrite SIPROUND_current_word; reflexivity).
  rewrite unmix_unfold, mix_unfold. fold s1.
  rewrite v0_set_v0, current_word_set_v0, W2, lxor_cancel_r.
  rewrite set_v0_set_v0.
  rewrite SIPROUND_inv_SIPROUND by apply SIPROUND_u64.
  rewrite SIPROUND_inv_SIPROUND by exact H1.
  unfold s1. rewrite v3_set_v3, current_word_set_v3, lxor_cancel_r.
  apply set_v3_set_v3.
Qed.

(** Compression with a fixed word is injective on lanes. *)
Lemma compression_inj (v v' : Reference.lanes) (w : Z) :
  is_u64 w -> quad_u64 v -> quad_u64 v' ->
  Reference.compression 2 v w = Reference.compression 2 v' w -> v = v'.
Proof.
  intros Hw Hv Hv' E.
  destruct v as [[[a b] c] d], v' as [[[a' b'] c'] d'].
  pose proof (mix_lanes (mkSipHash a b c d 0 w)) as M.
  pose proof (mix_lanes (mkSipHash a' b' c' d' 0 w)) as M'.
  cbn [current_word] in M, M'.
  change (lanes_of (mkSipHash a b c d 0 w)) with (a, b, c, d) in M.
  change (lanes_of (mkSipHash a' b' c' d' 0 w)) with (a', b', c', d') in M'.
  assert (Em : mix_current_word (mkSipHash a b c d 0 w) =
               mix_current_word (mkSipHash a' b' c' d' 0 w)).
  { apply SipHash_eq.
    - rewrite M, M'. exact E.
    - rewrite !mix_cnt. reflexivity.
    - rewrite !mix_word. reflexivity. }
  apply (f_equal unmix_current_word) in Em.
  rewrite !unmix_mix in Em by (try exact Hw; assumption).
  injection Em as -> -> -> ->. reflexivity.
Qed.

Lemma fold_compression_inj (ws : list Z) : forall v v' : Reference.lanes,
  Forall is_u64 ws -> quad_u64 v -> quad_u64 v' ->
  fold_left (Reference.compression 2) ws v =
  fold_left (Reference.compression 2) ws v' -> v = v'.
Proof.
  induction ws as [| w ws IH]; intros v v' Hws Hv Hv' E.
  - exact E.
  - rewrite !fold_left_cons in E. inversion Hws as [| ? ? Hw Hws']; subst.
    apply (compression_inj v v' w Hw Hv Hv').
    apply IH; [exact Hws' | apply compression_u64, Hw
               | apply compression_u64, Hw | exact E].
Qed.

Lemma SipRound_u64 (v : Reference.lanes) : quad_u64 (Reference.SipRound v).
Proof.
  destruct v as [[[a b] c] d].
  pose proof (SIPROUND_lanes (mkSipHash a b c d 0 0)) as L.
  change (lanes_of (mkSipHash a b c d 0 0)) with (a, b, c, d) in L.
  rewrite <- L. apply lanes_u64_quad, SIPROUND_u64.
Qed.

Lemma SipRound_inj (v v' : Reference.lanes) :
  quad_u64 v -> quad_u64 v' ->
  Reference.SipRound v = Reference.SipRound v' -> v = v'.
Proof.
  intros Hv Hv' E.
  destruct v as [[[a b] c] d], v' as [[[a' b'] c'] d'].
  pose proof (SIPROUND_lanes (mkSipHash a b c d 0 0)) as L.
  pose proof (SIPROUND_lanes (mkSipHash a' b' c' d' 0 0)) as L'.
  change (lanes_of (mkSipHash a b c d 0 0)) with (a, b, c, d) in L.
  change (lanes_of (mkSipHash a' b' c' d' 0 0)) with (a', b', c', d') in L'.
  assert (Es : SIPROUND (mkSipHash a b c d 0 0) =
               SIPROUND (mkSipHash a' b' c' d' 0 0)).
  { apply SipHash_eq.
    - rewrite L, L'. exact E.
    - rewrite !SIPROUND_cnt. reflexivity.
    - rewrite !SIPROUND_current_word. reflexivity. }
  apply (f_equal SIPROUND_inv) in Es.
  rewrite !SIPROUND_inv_SIPROUND in Es by assumption.
  injection Es as -> -> -> ->. reflexivity.
Qed.

Lemma iter_SipRound_inj (n : nat) : forall v v' : Reference.lanes,
  quad_u64 v -> quad_u64 v' ->
  Nat.iter n Reference.SipRound v = Nat.iter n Reference.SipRound v' -> v = v'.
Proof.
  induction n as [| n IH]; intros v v' Hv Hv' E.
  - exact E.
  - rewrite !Nat.iter_succ_r in E.
    apply (SipRound_inj v v' Hv Hv').
    apply IH; [apply SipRound_u64 | apply SipRound_u64 | exact E].
Qed.

Lemma initialization_inj (k0 k1 k0' k1' : Z) :
  Reference.initialization k0 k1 = Reference.initialization k0' k1' ->
  k0 = k0' /\ k1 = k1'.
Proof.
  unfold Reference.initialization. intros E. injection E as E0 E1 _ _.
  split.
  - rewrite <- (lxor_cancel_r k0 0x736f6d6570736575), E0. apply lxor_cancel_r.
  - rewrite <- (lxor_cancel_r k1 0x646f72616e646f6d), E1. apply lxor_cancel_r.
Qed.

Lemma initialization_u64 (k0 k1 : Z) :
  is_u64 k0 -> is_u64 k1 -> quad_u64 (Reference.initialization k0 k1).
Proof.
  intros H0 H1. unfold Reference.initialization, quad_u64.
  repeat apply conj; (apply lxor_u64; [assumption | unfold is_u64; lia]).
Qed.

(** X2.  For one and the same input, in whatever chunks, two different
    seeds (pairs of [u64] values) never lead to the same lanes, neither
    after the [update] calls nor after [finalize]: every step of the engine
    is a bijection of its four lanes, so the seed can be recovered from the
    lanes and the input.  (The digests, which fold the lanes with XOR, need
    not differ.) *)
Theorem seed_is_recoverable (k0 k1 k0' k1' : Z) (chunks : list (list byte)) :
  is_u64 k0 -> is_u64 k1 -> is_u64 k0' -> is_u64 k1' ->
  (lanes_of (updates (SipHash_ctor k0 k1) chunks) =
   lanes_of (updates (SipHash_ctor k0' k1') chunks) ->
   k0 = k0' /\ k1 = k1') /\
  (lanes_of (finalize (updates (SipHash_ctor k0 k1) chunks)) =
   lanes_of (finalize (updates (SipHash_ctor k0' k1') chunks)) ->
   k0 = k0' /\ k1 = k1').
Proof.
  intros H0 H1 H0' H1'.
  assert (Hu : lanes_of (updates (SipHash_ctor k0 k1) chunks) =
               lanes_of (updates (SipHash_ctor k0' k1') chunks) ->
               k0 = k0' /\ k1 = k1').
  { rewrite !updates_ctor, !absorbed_lanes, !ctor_lanes. intros E.
    apply initialization_inj.
    apply (fold_compression_inj _ _ _ (parse_u64 (concat chunks)));
      [apply initialization_u64; assumption
      | apply initialization_u64; assumption | exact E]. }
  split; [exact Hu |].
  intros E. apply Hu.
  rewrite !finalize_lanes in E.
  assert (Ew : set_byte (current_word (updates (SipHash_ctor k0' k1') chunks)) 7
                 (cnt (updates (SipHash_ctor k0' k1') chunks) mod 256) =
               set_byte (current_word (updates (SipHash_ctor k0 k1) chunks)) 7
                 (cnt (updates (SipHash_ctor k0 k1) chunks) mod 256)).
  { rewrite !updates_ctor, !absorbed_word, !absorbed_cnt. reflexivity. }
  rewrite Ew in E.
  assert (Hw : is_u64 (set_byte (current_word (updates (SipHash_ctor k0 k1) chunks)) 7
                         (cnt (updates (SipHash_ctor k0 k1) chunks) mod 256))).
  { rewrite updates_ctor, absorbed_word.
    destruct (length_parse_remainder (concat chunks)) as [_ Hlt].
    rewrite (last_word _ _ Hlt). apply le_word_u64.
    rewrite !length_app, repeat_length. cbn [length]. lia. }
  set (w := set_byte _ 7 _) in *.
  pose proof (compression_u64 (lanes_of (updates (SipHash_ctor k0 k1) chunks)) w Hw)
    as Q.
  pose proof (compression_u64 (lanes_of (updates (SipHash_ctor k0' k1') chunks)) w Hw)
    as Q'.
  assert (Hl : quad_u64 (lanes_of (updates (SipHash_ctor k0 k1) chunks))).
  { rewrite updates_ctor, absorbed_lanes, ctor_lanes.
    apply fold_compression_u64;
      [apply parse_u64 | apply initialization_u64; assumption]. }
  assert (Hl' : quad_u64 (lanes_of (updates (SipHash_ctor k0' k1') chunks))).
  { rewrite updates_ctor, absorbed_lanes, ctor_lanes.
    apply fold_compression_u64;
      [apply parse_u64 | apply initialization_u64; assumption]. }
  apply (compression_inj _ _ w Hw Hl Hl').
  destruct (Reference.compression 2 (lanes_of (updates (SipHash_ctor k0 k1) chunks)) w)
    as [[[a b] c] d].
  destruct (Reference.compression 2 (lanes_of (updates (SipHash_ctor k0' k1') chunks)) w)
    as [[[a' b'] c'] d'].
  destruct Q as (Qa & Qb & Qc & Qd). destruct Q' as (Qa' & Qb' & Qc' & Qd').
  assert (H255 : is_u64 255) by (unfold is_u64; lia).
  apply iter_SipRound_inj in E;
    [| split; [assumption | split; [assumption |
         split; [apply lxor_u64; assumption | assumption]]]
     | split; [assumption | split; [assumption |
         split; [apply lxor_u64; assumption | assumption]]]].
  injection E as -> -> Ec ->.
  f_equal. f_equal.
  rewrite <- (lxor_cancel_r c 255), Ec. apply lxor_cancel_r.
Qed.

(** With the seeds (1, 2) and (1, 2) themselves and two chunks. *)
Lemma seed_is_recoverable_witness :
  (is_u64 1 /\ is_u64 2) /\ (1 = 1 /\ 2 = 2).
Proof.
  assert (H1 : is_u64 1) by (unfold is_u64; lia).
  assert (H2 : is_u64 2) by (unfold is_u64; lia).
  split; [split; assumption |].
  exact (proj1 (seed_is_recoverable 1 2 1 2 [[x00; x01]; [x02]] H1 H2 H1 H2)
               eq_refl).
Defined.


(** ** The 64-bit digest folds the 128-bit digest *)

Lemma get64_state (s : SipHash) : snd (get64 s) = finalize s.
Proof. reflexivity. Qed.

Lemma get128_state (s : SipHash) : snd (get128 s) = finalize s.
Proof. reflexivity. Qed.

Lemma get128_out_state (s : SipHash) : snd (get128_out s) = finalize s.
Proof. reflexivity. Qed.

Lemma get64_value (s : SipHash) :
  fst (get64 s) =
  Z.lxor (Z.lxor (Z.lxor (v0 (finalize s)) (v1 (finalize s)))
                 (v2 (finalize s))) (v3 (finalize s)).
Proof. reflexivity. Qed.

Lemma get128_value (s : SipHash) :
  fst (get128 s) =
  (Z.lxor (v0 (finalize s)) (v1 (finalize s)),
   Z.lxor (v2 (finalize s)) (v3 (finalize s))).
Proof. reflexivity. Qed.

Lemma halves_app (a b : list byte) :
  length a = 8%nat -> firstn 8 (a ++ b) = a /\ skipn 8 (a ++ b) = b.
Proof.
  intros H. rewrite <- H. split.
  - rewrite firstn_app, Nat.sub_diag, firstn_all. cbn [firstn].
    apply app_nil_r.
  - rewrite skipn_app, Nat.sub_diag, skipn_all. reflexivity.
Qed.

Lemma get128_out_halves (s : SipHash) :
  le_word (firstn 8 (fst (get128_out s))) =
    Z.lxor (v0 (finalize s)) (v1 (finalize s)) /\
  le_word (skipn 8 (fst (get128_out s))) =
    Z.lxor (v2 (finalize s)) (v3 (finalize s)).
Proof.
  rewrite get128_out_bytes.
  destruct (halves_app (le_bytes 8 (Z.lxor (v0 (finalize s)) (v1 (finalize s))))
                       (le_bytes 8 (Z.lxor (v2 (finalize s)) (v3 (finalize s))))
                       (length_le_bytes 8 _)) as [-> ->].
  destruct (finalize_u64 s) as (H0 & H1 & H2 & H3).
  split; apply le_word_le_bytes_u64, lxor_u64; assumption.
Qed.

Lemma sipHash64_unfold (data : list byte) :
  sipHash64 data = fst (get64 (update SipHash_default data)).
Proof. reflexivity. Qed.

Lemma sipHash128_unfold (data : list byte) :
  sipHash128 data = fst (get128_out (update SipHash_default data)).
Proof. reflexivity. Qed.

(** X3.  On every engine the digest of [get64] is the XOR of the two words
    [lo] and [hi] of [get128], and of the two little-endian halves of the 16
    bytes that [get128] writes at a [char] pointer; the three getters leave
    the same engine; and [sipHash64] of a buffer is the XOR of the two halves of its
    [sipHash128]. *)
Theorem digest_folding (s : SipHash) (data : list byte) :
  fst (get64 s) = Z.lxor (fst (fst (get128 s))) (snd (fst (get128 s))) /\
  fst (get64 s) =
    Z.lxor (le_word (firstn 8 (fst (get128_out s))))
           (le_word (skipn 8 (fst (get128_out s)))) /\
  (snd (get64 s) = snd (get128 s) /\ snd (get128 s) = snd (get128_out s)) /\
  sipHash64 data =
    Z.lxor (le_word (firstn 8 (sipHash128 data)))
           (le_word (skipn 8 (sipHash128 data))).
Proof.
  split; [| split; [| split]].
  - rewrite get64_value, get128_value. cbn [fst snd].
    rewrite <- Z.lxor_assoc. reflexivity.
  - destruct (get128_out_halves s) as [-> ->].
    rewrite get64_value, <- Z.lxor_assoc. reflexivity.
  - rewrite get64_state, get128_state, get128_out_state. split; reflexivity.
  - rewrite sipHash64_unfold, sipHash128_unfold.
    destruct (get128_out_halves (update SipHash_default data)) as [-> ->].
    rewrite get64_value, <- Z.lxor_assoc. reflexivity.
Qed.

(** ** The last word is unambiguous *)

Lemma byte_val_inj (a b : byte) : byte_val a = byte_val b -> a = b.
Proof.
  unfold byte_val. intros H. apply N2Z.inj in H.
  pose proof (Byte.of_to_N a) as Ha. pose proof (Byte.of_to_N b) as Hb.
  rewrite H in Ha. rewrite Ha in Hb. injection Hb as ->. reflexivity.
Qed.

(** Two byte lists of one length with the same bytes in their words are
    equal. *)
Lemma bytes_ext (t t' : list byte) :
  length t = length t' ->
  (forall i : nat, (i < length t)%nat ->
     get_byte (le_word t) (Z.of_nat i) = get_byte (le_word t') (Z.of_nat i)) ->
  t = t'.
Proof.
  intros Hl E. apply (nth_ext _ _ x00 x00 Hl). intros i Hi.
  apply byte_val_inj. specialize (E i Hi).
  rewrite !get_byte_le_word in E.
  destruct (Nat.ltb_spec i (length t)) as [_ | ?]; [| lia].
  destruct (Nat.ltb_spec i (length t')) as [_ | ?]; [| lia].
  exact E.
Qed.

Lemma final_word_byte7 (m : list byte) (n : Z) :
  get_byte (set_byte (le_word (remainder m)) 7 (n mod 256)) 7 = n mod 256.
Proof.
  rewrite get_set_byte by (try apply Z.mod_pos_bound; lia). reflexivity.
Qed.

Lemma final_word_low (m : list byte) (n : Z) (i : nat) :
  (i < 7)%nat ->
  get_byte (set_byte (le_word (remainder m)) 7 (n mod 256)) (Z.of_nat i) =
  get_byte (le_word (remainder m)) (Z.of_nat i).
Proof.
  intros Hi. rewrite get_set_byte by (try apply Z.mod_pos_bound; lia).
  destruct (Z.eqb_spec 7 (Z.of_nat i)) as [E | _]; [lia | reflexivity].
Qed.

Lemma final_word_of_updates (k0 k1 : Z) (chunks : list (list byte)) :
  current_word (finalize (updates (SipHash_ctor k0 k1) chunks)) =
  set_byte (le_word (remainder (concat chunks))) 7
           (Z.of_nat (length (concat chunks)) mod 256).
Proof.
  rewrite finalize_word, updates_ctor, absorbed_word, absorbed_cnt.
  cbn [cnt SipHash_ctor]. rewrite Z.add_0_l, wrap64_mod256. reflexivity.
Qed.

(** X5.  The word that [finalize] compresses last determines the pending
    bytes and the length modulo 256 of everything fed: two engines, of any
    seeds and fed in any chunks, whose last words agree were fed the same
    number of bytes modulo 256 and hold the same bytes after the last whole
    word.  So the padding never makes two inputs of different pending bytes
    or lengths (below 256 apart) end in the same word. *)
Theorem final_word_unambiguous (k0 k1 k0' k1' : Z)
        (chunks chunks' : list (list byte)) :
  current_word (finalize (updates (SipHash_ctor k0 k1) chunks)) =
  current_word (finalize (updates (SipHash_ctor k0' k1') chunks')) ->
  (length (concat chunks) mod 256 = length (concat chunks') mod 256)%nat /\
  remainder (concat chunks) = remainder (concat chunks').
Proof.
  rewrite !final_word_of_updates. intros E.
  set (m := concat chunks) in *. set (m' := concat chunks') in *.
  assert (E7 : Z.of_nat (length m) mod 256 = Z.of_nat (length m') mod 256).
  { pose proof (f_equal (fun w => get_byte w 7) E) as E7. cbv beta in E7.
    rewrite !final_word_byte7 in E7. exact E7. }
  assert (N : (length m mod 256 = length m' mod 256)%nat).
  { apply Nat2Z.inj. rewrite !Nat2Z.inj_mod. exact E7. }
  split; [exact N |].
  assert (L : length (remainder m) = length (remainder m')).
  { rewrite !length_remainder_mod.
    change 256%nat with (8 * 32)%nat in N.
    rewrite !Nat.Div0.mod_mul_r in N.
    pose proof (Nat.mod_upper_bound (length m) 8) as B.
    pose proof (Nat.mod_upper_bound (length m') 8) as B'.
    nia. }
  apply (bytes_ext _ _ L). intros i Hi.
  destruct (length_parse_remainder m) as [_ Hlt].
  rewrite <- (final_word_low m (Z.of_nat (length m)) i) by lia.
  rewrite <- (final_word_low m' (Z.of_nat (length m')) i) by lia.
  rewrite E. reflexivity.
Qed.

(** Two engines of different seeds fed the same nine bytes in different
    chunks. *)
Lemma final_word_unambiguous_witness :
  current_word (finalize (updates (SipHash_ctor 1 2)
                  [[x00; x01; x02]; [x03; x04; x05; x06; x07; x08]])) =
  current_word (finalize (updates (SipHash_ctor 3 4)
                  [[x00; x01; x02; x03; x04; x05; x06; x07; x08]])) /\
  remainder (concat [[x00; x01; x02]; [x03; x04; x05; x06; x07; x08]]) =
  remainder (concat [[x00; x01; x02; x03; x04; x05; x06; x07; x08]]).
Proof.
  assert (H : current_word (finalize (updates (SipHash_ctor 1 2)
                  [[x00; x01; x02]; [x03; x04; x05; x06; x07; x08]])) =
              current_word (finalize (updates (SipHash_ctor 3 4)
                  [[x00; x01; x02; x03; x04; x05; x06; x07; x08]])))
    by (vm_compute; reflexivity).
  split; [exact H |].
  exact (proj2 (final_word_unambiguous 1 2 3 4
                  [[x00; x01; x02]; [x03; x04; x05; x06; x07; x08]]
                  [[x00; x01; x02; x03; x04; x05; x06; x07; x08]] H)).
Defined.

(** ** The all-zero lanes *)

(** X6.  [SIPROUND] has no constants: it maps all-zero lanes to all-zero
    lanes, and among [u64] lanes only those; the constructor never starts
    there, whatever the seed, because the constants it XORs into [v0] and
    [v2] (and into [v1] and [v3]) differ. *)
Theorem zero_lanes_fixed_point (s : SipHash) (k0 k1 : Z) :
  (lanes_of s = (0, 0, 0, 0) -> lanes_of (SIPROUND s) = (0, 0, 0, 0)) /\
  (lanes_u64 s -> lanes_of (SIPROUND s) = (0, 0, 0, 0) ->
   lanes_of s = (0, 0, 0, 0)) /\
  v0 (SipHash_ctor k0 k1) <> v2 (SipHash_ctor k0 k1) /\
  v1 (SipHash_ctor k0 k1) <> v3 (SipHash_ctor k0 k1) /\
  lanes_of (SipHash_ctor k0 k1) <> (0, 0, 0, 0).
Proof.
  assert (Z0 : Reference.SipRound (0, 0, 0, 0) = (0, 0, 0, 0))
    by (vm_compute; reflexivity).
  assert (N02 : v0 (SipHash_ctor k0 k1) <> v2 (SipHash_ctor k0 k1)).
  { cbn [v0 v2 SipHash_ctor]. intros E.
    apply (f_equal (fun x => Z.lxor x k0)) in E.
    rewrite !lxor_cancel_r in E. discriminate E. }
  assert (N13 : v1 (SipHash_ctor k0 k1) <> v3 (SipHash_ctor k0 k1)).
  { cbn [v1 v3 SipHash_ctor]. intros E.
    apply (f_equal (fun x => Z.lxor x k1)) in E.
    rewrite !lxor_cancel_r in E. discriminate E. }
  split; [| split; [| split; [exact N02 | split; [exact N13 |]]]].
  - intros H. rewrite SIPROUND_lanes, H. exact Z0.
  - intros Hu H. rewrite SIPROUND_lanes, <- Z0 in H.
    apply SipRound_inj in H; [exact H | apply lanes_u64_quad, Hu |].
    unfold quad_u64, is_u64. lia.
  - intros E. apply lanes_of_inv in E. destruct E as (E0 & _ & E2 & _).
    apply N02. rewrite E0, E2. reflexivity.
Qed.

(** ** The getters can only be used once *)

(** X8.  After a getter the engine is no longer one that [update] calls
    produce: when the number of bytes fed is not a multiple of 256,
    [finalize] leaves that number modulo 256 in byte 7 of the carry word,
    which is 0 in every engine reached from a constructor by [update]
    calls alone, whatever the seed and the input. *)
Theorem getter_leaves_stream (k0 k1 : Z) (chunks : list (list byte)) :
  (length (concat chunks) mod 256 <> 0)%nat ->
  get_byte (current_word (snd (get64 (updates (SipHash_ctor k0 k1) chunks)))) 7 =
    Z.of_nat (length (concat chunks) mod 256) /\
  (forall (k0' k1' : Z) (chunks' : list (list byte)),
     get_byte (current_word (updates (SipHash_ctor k0' k1') chunks')) 7 = 0 /\
     snd (get64 (updates (SipHash_ctor k0 k1) chunks)) <>
       updates (SipHash_ctor k0' k1') chunks' /\
     snd (get128 (updates (SipHash_ctor k0 k1) chunks)) <>
       updates (SipHash_ctor k0' k1') chunks' /\
     snd (get128_out (updates (SipHash_ctor k0 k1) chunks)) <>
       updates (SipHash_ctor k0' k1') chunks').
Proof.
  intros Hn.
  assert (B7 : get_byte (current_word
                 (finalize (updates (SipHash_ctor k0 k1) chunks))) 7 =
               Z.of_nat (length (concat chunks) mod 256)).
  { rewrite final_word_of_updates, final_word_byte7.
    rewrite Nat2Z.inj_mod. reflexivity. }
  assert (R7 : forall k0' k1' chunks',
             get_byte (current_word (updates (SipHash_ctor k0' k1') chunks')) 7 = 0).
  { intros k0' k1' chunks'. rewrite updates_ctor, absorbed_word.
    apply get_byte_small; [lia | apply remainder_word_range]. }
  assert (D : forall k0' k1' chunks',
             finalize (updates (SipHash_ctor k0 k1) chunks) <>
             updates (SipHash_ctor k0' k1') chunks').
  { intros k0' k1' chunks' E.
    apply (f_equal (fun e => get_byte (current_word e) 7)) in E.
    cbv beta in E. rewrite B7, R7 in E. lia. }
  rewrite get64_state, get128_state, get128_out_state.
  split; [exact B7 |].
  intros k0' k1' chunks'.
  split; [apply R7 |]. split; [apply D |]. split; apply D.
Qed.

(** An engine fed three bytes. *)
Lemma getter_leaves_stream_witness :
  (length (concat [[x01; x02]; [x03]]) mod 256 <> 0)%nat /\
  get_byte (current_word (snd (get64 (updates (SipHash_ctor 0 0)
                                        [[x01; x02]; [x03]])))) 7 =
  Z.of_nat (length (concat [[x01; x02]; [x03]]) mod 256).
Proof.
  assert (H : (length (concat [[x01; x02]; [x03]]) mod 256 <> 0)%nat)
    by (intros E; vm_compute in E; discriminate E).
  split; [exact H |].
  exact (proj1 (getter_leaves_stream 0 0 [[x01; x02]; [x03]] H)).
Defined.

(** ** Strings *)

Lemma list_byte_of_string_append (a b : String.string) :
  String.list_byte_of_string (String.append a b) =
  String.list_byte_of_string a ++ String.list_byte_of_string b.
Proof.
  unfold String.list_byte_of_string.
  induction a as [| c a IH].
  - reflexivity.
  - cbn [String.append String.list_ascii_of_string map app].
    rewrite IH. reflexivity.
Qed.

(** X7.  The [std::string] overload on a concatenation: the bytes of
    [a + b] are the bytes of [a] followed by those of [b], and its
    [sipHash64] is the digest of a default engine fed [a] and then [b]. *)
Theorem string_concatenation (a b : String.string) :
  String.list_byte_of_string (String.append a b) =
    String.list_byte_of_string a ++ String.list_byte_of_string b /\
  sipHash64_string (String.append a b) =
    fst (get64 (update (update SipHash_default (String.list_byte_of_string a))
                       (String.list_byte_of_string b))) /\
  sipHash64_string (String.append a b) =
    sipHash64 (String.list_byte_of_string a ++ String.list_byte_of_string b).
Proof.
  split; [apply list_byte_of_string_append |].
  assert (S : sipHash64_string (String.append a b) =
              sipHash64 (String.list_byte_of_string a ++
                         String.list_byte_of_string b)).
  { unfold sipHash64_string. rewrite list_byte_of_string_append.
    reflexivity. }
  split; [| exact S].
  rewrite S, sipHash64_unfold. unfold SipHash_default.
  rewrite !update_ctor, update_absorbed by reflexivity.
  reflexivity.
Qed.


(** ** The rotation macro *)

Lemma ROTL_zero (b : Z) : ROTL 0 b = 0.
Proof.
  unfold ROTL. rewrite Z.shiftl_0_l, Z.shiftr_0_l. reflexivity.
Qed.

(** Two rotations in a row are one rotation by the sum of the amounts. *)
Lemma ROTL_ROTL (x a b : Z) :
  is_u64 x -> 0 < a < 64 -> 0 < b < 64 -> (a + b) mod 64 <> 0 ->
  ROTL (ROTL x a) b = ROTL x ((a + b) mod 64).
Proof.
  intros Hx Ha Hb Hab.
  assert (Hr : 0 < (a + b) mod 64 < 64)
    by (pose proof (Z.mod_pos_bound (a + b) 64); lia).
  apply Z.bits_inj'. intros i Hi.
  destruct (Z.lt_ge_cases i 64) as [Hlt | Hge].
  - rewrite (ROTL_testbit (ROTL x a) b i) by (try apply ROTL_u64; lia).
    rewrite (ROTL_testbit x a)
      by (try exact Hx; try lia; apply Z.mod_pos_bound; lia).
    rewrite (ROTL_testbit x ((a + b) mod 64) i) by (try exact Hx; lia).
    f_equal. Z.div_mod_to_equations. lia.
  - rewrite (u64_testbit_high (ROTL (ROTL x a) b))
      by (try apply ROTL_u64; lia).
    rewrite (u64_testbit_high (ROTL x ((a + b) mod 64)))
      by (try apply ROTL_u64; lia).
    reflexivity.
Qed.

(** X9.  The macro [ROTL(x, b)] on a [u64] and an amount strictly between 0
    and 64, as in all its uses, is a rotation: it gives a [u64], it is
    undone by [ROTL(., 64 - b)], by 32 places it is its own inverse, two
    rotations compose by adding the amounts modulo 64, and it sends only 0
    to 0. *)
Theorem rotation_laws (x a b : Z) :
  is_u64 x -> 0 < a < 64 -> 0 < b < 64 ->
  is_u64 (ROTL x a) /\
  ROTL (ROTL x a) (64 - a) = x /\
  ROTL (ROTL x 32) 32 = x /\
  ((a + b) mod 64 <> 0 -> ROTL (ROTL x a) b = ROTL x ((a + b) mod 64)) /\
  (ROTL x a = 0 <-> x = 0).
Proof.
  intros Hx Ha Hb.
  split; [apply ROTL_u64 |].
  split; [apply ROTL_inverse; assumption |].
  split; [apply (ROTL_inverse x 32 Hx); lia |].
  split; [apply ROTL_ROTL; assumption |].
  split.
  - intros E. rewrite <- (ROTL_inverse x a Hx Ha), E. apply ROTL_zero.
  - intros ->. apply ROTL_zero.
Qed.

(** The two rotations of [v1] in one round, on the word 1. *)
Lemma rotation_laws_witness :
  (is_u64 1 /\ 0 < 13 < 64 /\ 0 < 17 < 64) /\
  ROTL (ROTL 1 13) (64 - 13) = 1.
Proof.
  assert (Hx : is_u64 1) by (unfold is_u64; lia).
  assert (Ha : 0 < 13 < 64) by lia.
  assert (Hb : 0 < 17 < 64) by lia.
  split; [split; [exact Hx | split; [exact Ha | exact Hb]] |].
  exact (proj1 (proj2 (rotation_laws 1 13 17 Hx Ha Hb))).
Defined.
